(** * NPLMiniRuntime: address parsing, mailbox dispatch and the state pool

    A shallow embedding of [NPLMiniRuntime.hpp] (namespace [NPLInterface]):
    - [NPLFileNameT]: [SetRelativePath], [ToString], [FromString];
    - [CNPLMiniState]: [GetName], [activate], [Activate_async],
      [GetCurrentMsg], [RegisterFileHandler], [ProcessMsg], [Process] and the
      scoped [CCurrentMessage] guard;
    - [CNPLMiniRuntimeT]: [Init], [Run], [Cleanup], [Activate],
      [CreateRuntimeState], [GetRuntimeState], [CreateGetRuntimeState],
      [DeleteRuntimeState] and the entry points [CreateState], [GetState],
      [CreateGetState], [DeleteState], [GetMainState].

    Conventions.  A [const char*] argument is a NUL-terminated buffer: reads
    are checked against the buffer, and a read past the terminator is
    undefined behaviour.  [int] values are integers of [Z]; the source never
    relies on wrap-around, and inputs are taken to be shorter than INT_MAX.
    Mutexes are not modelled: every operation runs to completion on one
    thread. *)

From Stdlib Require Import ZArith Ascii String.
From stdpp Require Import gmap strings list fin_maps sorting.

Open Scope string_scope.
Open Scope list_scope.
Open Scope Z_scope.

(** ** Checked computations *)

(** The behaviours of the C++ abstract machine that the source can reach
    without having defined behaviour. *)
Inductive UB : Type :=
| out_of_bounds_read      (* a [char] read past the terminator of a buffer *)
| null_dereference        (* a call through a null [shared_ptr] or pointer *)
| dangling_state          (* use of a destroyed [CNPLMiniState] *)
| invalid_iterator.       (* a vector iterator used after the vector changed *)

Inductive Checked (A : Type) : Type :=
| Defined (a : A)
| Undef (u : UB).
Arguments Defined {A} a.
Arguments Undef {A} u.

#[global] Instance Checked_ret : MRet Checked := fun A a => Defined a.
#[global] Instance Checked_bind : MBind Checked := fun A B f m =>
  match m with
  | Defined a => f a
  | Undef u => Undef u
  end.

(** ** C strings *)

Definition NUL : ascii := "000"%char.

(** The buffer behind [s.c_str()] or behind a [const char*] holding [s]. *)
Definition c_str (s : string) : list ascii := list_ascii_of_string s ++ [NUL].

(** [p[i]] *)
Definition peek (p : list ascii) (i : Z) : Checked ascii :=
  if decide (i < 0) then Undef out_of_bounds_read
  else match p !! Z.to_nat i with
       | Some c => Defined c
       | None => Undef out_of_bounds_read
       end.

(** [while ((p[i] != stop) && (p[i] != '\0')) i++;] where [rest] is the
    buffer from [p + i] on.  The value is the final [i]. *)
Fixpoint scan_loop (stop : ascii) (rest : list ascii) (i : Z) : Checked Z :=
  match rest with
  | [] => Undef out_of_bounds_read
  | c :: rest' =>
      if decide (c = stop) then Defined i
      else if decide (c = NUL) then Defined i
      else scan_loop stop rest' (i + 1)
  end.

Definition scan (stop : ascii) (p : list ascii) (i : Z) : Checked Z :=
  if decide (i < 0) then Undef out_of_bounds_read
  else scan_loop stop (drop (Z.to_nat i) p) i.

(** [std::string::assign(p + start, n)]: the [n] characters from [p + start]. *)
Definition assign (p : list ascii) (start n : Z) : Checked string :=
  if decide (0 ≤ start ∧ 0 ≤ n ∧ start + n ≤ Z.of_nat (length p))
  then Defined (string_of_list_ascii (take (Z.to_nat n) (drop (Z.to_nat start) p)))
  else Undef out_of_bounds_read.

(** Assignment of a C string to a [std::string]: the characters before the
    first terminator. *)
Fixpoint until_nul (rest : list ascii) : Checked (list ascii) :=
  match rest with
  | [] => Undef out_of_bounds_read
  | c :: rest' =>
      if decide (c = NUL) then Defined []
      else r ← until_nul rest'; Defined (c :: r)
  end.

Definition assign_cstr (p : list ascii) (start : Z) : Checked string :=
  if decide (start < 0) then Undef out_of_bounds_read
  else r ← until_nul (drop (Z.to_nat start) p); Defined (string_of_list_ascii r).

(** ** NPLFileNameT *)

Record NPLFileName : Type := mkNPLFileName {
  sRuntimeStateName : string;
  sNID : string;
  sRelativePath : string;
  sDNSServerName : string
}.

#[global] Instance NPLFileName_eq_dec : EqDecision NPLFileName.
Proof. solve_decision. Defined.

(** The default constructor [NPLFileNameT()]. *)
Definition NPLFileName_new : NPLFileName := mkNPLFileName "" "" "" "".

(** The character loop of [SetRelativePath]: [nCount] is the size of the
    string on both branches, so the loop visits every character. *)
Definition to_slash (c : ascii) : ascii :=
  if decide (c = "\"%char) then "/"%char else c.

Definition slashes (s : string) : string :=
  string_of_list_ascii (to_slash <$> list_ascii_of_string s).

(** [SetRelativePath(p + start, nCount)]; the value is the new
    [sRelativePath]. *)
Definition SetRelativePath (p : list ascii) (start nCount : Z) : Checked string :=
  path ← (if decide (nCount ≤ 0) then assign_cstr p start
          else assign p start nCount);
  Defined (slashes path).

Definition ToString (f : NPLFileName) : string :=
  let output := "" in
  let output :=
    if decide (sRuntimeStateName f = "") then output
    else ((output +:+ "(") +:+ sRuntimeStateName f) +:+ ")" in
  let output := if decide (sNID f = "") then output else output +:+ sNID f in
  let output :=
    if decide (sRelativePath f = "") then output else output +:+ sRelativePath f in
  if decide (sDNSServerName f = "") then output
  else (output +:+ "@") +:+ sDNSServerName f.

(** The [if (sFilePath[i] == '(')] block of [FromString], entered with
    [i = 0]: the new [sRuntimeStateName] and the index after the block,
    which is also [nNIDIndex]. *)
Definition activation_type (p : list ascii) : Checked (string * Z) :=
  i ← scan ")"%char p 1;
  let i := i + 1 in
  is_gl ← (if decide (i = 4) then
             c1 ← peek p 1;
             if decide (c1 = "g"%char) then
               c2 ← peek p 2; Defined (bool_decide (c2 = "l"%char))
             else Defined false
           else Defined false) : Checked bool;
  name ← (if is_gl : bool then Defined "" else assign p 1 (i - 2));
  Defined (name, i).

(** [FromString] from the comment [/// get namespace] on, entered with
    [i = nNIDIndex] and with [state] the value of [sRuntimeStateName]. *)
Definition FromString_namespace (p : list ascii) (state : string) (nNIDIndex : Z)
  : Checked NPLFileName :=
  i ← scan ":"%char p nNIDIndex;
  c ← peek p i;
  if decide (c = NUL) then
    path ← assign p nNIDIndex (i - nNIDIndex);
    Defined (mkNPLFileName state "" path "")
  else
    nid ← (if decide (i > nNIDIndex) then assign p nNIDIndex (i - nNIDIndex)
           else Defined "");
    let nRelativePathIndex := i + 1 in
    let i := i + 1 in
    i ← scan "@"%char p i;
    path ← SetRelativePath p nRelativePathIndex (i - nRelativePathIndex);
    c ← peek p i;
    if decide (c = NUL) then Defined (mkNPLFileName state nid path "")
    else
      let i := i + 1 in
      let nDNSServerIndex := i in
      i ← scan NUL p i;
      dns ← assign p nDNSServerIndex (i - nDNSServerIndex);
      Defined (mkNPLFileName state nid path dns).

(** [this->FromString(sFilePath)]; the value is the object afterwards. *)
Definition FromString (this : NPLFileName) (sFilePath : string)
  : Checked NPLFileName :=
  let p := c_str sFilePath in
  c0 ← peek p 0;
  if decide (c0 = NUL) then Defined (mkNPLFileName "" "" "" "")
  else
    '(state, i) ← (if decide (c0 = "("%char) then activation_type p
                   else Defined (sRuntimeStateName this, 0));
    FromString_namespace p state i.

(** The constructor [NPLFileNameT(const char* filename)]. *)
Definition Parse (filename : string) : Checked NPLFileName :=
  FromString NPLFileName_new filename.

(** ** Predicates on texts *)

(** No character of [l] is [stop] or the terminator. *)
Definition plain (stop : ascii) (l : list ascii) : Prop :=
  Forall (λ c, c ≠ stop ∧ c ≠ NUL) l.

(** ASCII letters. *)
Definition alphabetic (c : ascii) : bool :=
  let n := nat_of_ascii c in
  ((65 <=? n)%nat && (n <=? 90)%nat) || ((97 <=? n)%nat && (n <=? 122)%nat).

Definition alphabetic_text (s : string) : Prop :=
  Forall (λ c, alphabetic c = true) (list_ascii_of_string s).

(** [l] cut at the first [c]: what is before it and what is after it. *)
Fixpoint split_at (c : ascii) (l : list ascii) : option (list ascii * list ascii) :=
  match l with
  | [] => None
  | x :: l' =>
      if decide (x = c) then Some ([], l')
      else match split_at c l' with
           | Some (a, b) => Some (x :: a, b)
           | None => None
           end
  end.

(** The optional ["(" name ")"] that opens an address text, and the text
    after it; [None] when a ['('] opens the text and no [')'] follows. *)
Definition state_prefix (l : list ascii) : option (list ascii * list ascii) :=
  match l with
  | c :: l' => if decide (c = "("%char) then split_at ")"%char l' else Some ([], l)
  | [] => Some ([], [])
  end.

(** The address that the specification expects of a text without [':']: the
    path ends at the first ['@'], what follows is the resolver name, and the
    path has its backslashes turned into slashes. *)
Definition no_colon_spec (text : string) (r : NPLFileName) : Prop :=
  let l := list_ascii_of_string text in
  sNID r = ""
  ∧ match split_at "@"%char l with
    | Some (path, resolver) =>
        sRelativePath r = slashes (string_of_list_ascii path)
        ∧ sDNSServerName r = string_of_list_ascii resolver
    | None =>
        sRelativePath r = slashes text ∧ sDNSServerName r = ""
    end.

(** The optional ["@" sDNSServerName] that ends an address text of the
    format that the source documents,
    [[(sRuntimeStateName|gl)][sNID:]sRelativePath[@sDNSServerName]]. *)
Definition resolver_suffix (dns : option (list ascii)) : list ascii :=
  match dns with
  | Some d => "@"%char :: d
  | None => []
  end.

(** ** Messages, callbacks and states *)

(** Modelled from the spec: the statuses of [NPL::NPLReturnCode] that the
    mini runtime returns, by the names it uses for them.  [NPLTypes.h], which
    declares the enumeration and its numeric values, is not among the
    sources, so the enumerators are kept symbolic. *)
Inductive NPLReturnCode : Type :=
| NPL_OK
| NPL_Error
| NPL_FailedToLoadFile.

(** An [int] result of [Activate]: an enumerator converted to [int], or an
    integer literal. *)
Inductive IntStatus : Type :=
| OfCode (c : NPLReturnCode)
| Literal (z : Z).

Record NPLMiniMessage : Type := mkNPLMiniMessage {
  m_sFilename : string;
  m_sCode : string;
  m_type : Z
}.

(** [NPLMiniMessage(sNPLFilename, sCode, nCodeLength)]; a null pointer is
    [None].  [reserve] does not change the value of [m_sCode]. *)
Definition NPLMiniMessage_new
    (sNPLFilename sCode : option string) (nCodeLength : Z) : NPLMiniMessage :=
  let m_sFilename := match sNPLFilename with Some f => f | None => "" end in
  let m_sCode :=
    match sCode with
    | Some c => if decide (nCodeLength ≤ 0) then c else c
    | None => ""
    end in
  mkNPLMiniMessage m_sFilename m_sCode 0.

(** The identity of a [CNPLMiniState] object: the pointer that
    [NPLRuntimeState_ptr] holds and that [NPLRuntimeState_PtrOps] compares. *)
Abbreviation addr := positive.

(** Client code.  A callback receives the activation type and the state that
    dispatches it; its body is a sequence of calls into the public interface
    of that state and of the runtime that owns it. *)
Inductive Action : Type :=
| ReadCurrentMsg
    (* GetCurrentMsg() and GetCurrentMsgLength() on the dispatching state *)
| CallActivate (from_self : bool) (sNeuronFile : string) (code : option string)
    (* Activate(this state or NULL, sNeuronFile, code) *)
| CallCreateState (name : string)
| CallDeleteState_self
    (* DeleteState(this state) *)
| CallDeleteState_named (name : string)
    (* DeleteState(GetState(name)) *)
| ThrowException (what : string).

(** [boost::function<void(int, void* )>]: empty, or holding client code. *)
Abbreviation Callback := (option (list Action)).

Inductive Exception : Type :=
| bad_function_call              (* boost: call of an empty function *)
| client_exception (what : string).

Record CNPLMiniState : Type := mkCNPLMiniState {
  m_current_msg : option string;
  m_current_msg_length : Z;
  m_name : string;
  m_input_queue : list NPLMiniMessage;
  m_file_handlers_map : gmap string Callback;
  m_processed_msg_count : Z
}.

(** [CNPLMiniState(name)] *)
Definition CNPLMiniState_new (name : option string) : CNPLMiniState :=
  mkCNPLMiniState None 0 (match name with Some n => n | None => "" end) [] ∅ 0.

Definition set_current (msg : option string) (nLength : Z) (st : CNPLMiniState)
  : CNPLMiniState :=
  mkCNPLMiniState msg nLength (m_name st) (m_input_queue st)
    (m_file_handlers_map st) (m_processed_msg_count st).

Definition set_queue (q : list NPLMiniMessage) (st : CNPLMiniState)
  : CNPLMiniState :=
  mkCNPLMiniState (m_current_msg st) (m_current_msg_length st) (m_name st) q
    (m_file_handlers_map st) (m_processed_msg_count st).

Definition set_handlers (h : gmap string Callback) (st : CNPLMiniState)
  : CNPLMiniState :=
  mkCNPLMiniState (m_current_msg st) (m_current_msg_length st) (m_name st)
    (m_input_queue st) h (m_processed_msg_count st).

Definition set_count (n : Z) (st : CNPLMiniState) : CNPLMiniState :=
  mkCNPLMiniState (m_current_msg st) (m_current_msg_length st) (m_name st)
    (m_input_queue st) (m_file_handlers_map st) n.

(** ** The world: the free store and one [CNPLMiniRuntimeT] *)

(** What an observer of a run sees, in order. *)
Inductive Event : Type :=
| EvProcess (a : addr)
    (* Process() entered on state a *)
| EvInvoke (a : addr) (file code : string)
    (* state a called the callback registered under file for a message
       whose body is code *)
| EvRead (a : addr) (msg : option string) (len : Z).
    (* a callback read the current message of state a *)

Record World : Type := mkWorld {
  heap : gmap addr CNPLMiniState;         (* the states that exist *)
  m_runtime_state_main : option addr;
  m_runtime_states : gset addr;
  m_temp_rts_pool : list addr;
  m_active_state_map : gmap string addr;
  trace : list Event                      (* ghost: what happened so far *)
}.

Definition set_heap (h : gmap addr CNPLMiniState) (w : World) : World :=
  mkWorld h (m_runtime_state_main w) (m_runtime_states w) (m_temp_rts_pool w)
    (m_active_state_map w) (trace w).

Definition set_main (m : option addr) (w : World) : World :=
  mkWorld (heap w) m (m_runtime_states w) (m_temp_rts_pool w)
    (m_active_state_map w) (trace w).

Definition set_states (s : gset addr) (w : World) : World :=
  mkWorld (heap w) (m_runtime_state_main w) s (m_temp_rts_pool w)
    (m_active_state_map w) (trace w).

Definition set_temp (t : list addr) (w : World) : World :=
  mkWorld (heap w) (m_runtime_state_main w) (m_runtime_states w) t
    (m_active_state_map w) (trace w).

Definition set_names (n : gmap string addr) (w : World) : World :=
  mkWorld (heap w) (m_runtime_state_main w) (m_runtime_states w)
    (m_temp_rts_pool w) n (trace w).

Definition set_trace (t : list Event) (w : World) : World :=
  mkWorld (heap w) (m_runtime_state_main w) (m_runtime_states w)
    (m_temp_rts_pool w) (m_active_state_map w) t.

(** The runtime before its constructor runs [Init]. *)
Definition World_new : World := mkWorld ∅ None ∅ [] ∅ [].

(** The states that some [shared_ptr] of the runtime points to.  Clients are
    taken to hold plain pointers only, as [CreateState] and [GetState] hand
    them out. *)
Definition referenced (w : World) : gset addr :=
  m_runtime_states w ∪ list_to_set (m_temp_rts_pool w)
  ∪ (match m_runtime_state_main w with Some a => {[a]} | None => ∅ end)
  ∪ map_img (m_active_state_map w).

(** ** Computations on the world *)

Inductive Outcome (A : Type) : Type :=
| Val (a : A) (w : World)                (* normal return *)
| Thrown (e : Exception) (w : World)     (* a C++ exception in flight *)
| Undefined (u : UB)
| OutOfFuel.                             (* the loop bound of the model *)
Arguments Val {A} a w.
Arguments Thrown {A} e w.
Arguments Undefined {A} u.
Arguments OutOfFuel {A}.

Definition M (A : Type) : Type := World → Outcome A.

Definition ret {A} (a : A) : M A := λ w, Val a w.

Definition bind {A B} (m : M A) (k : A → M B) : M B := λ w,
  match m w with
  | Val a w' => k a w'
  | Thrown e w' => Thrown e w'
  | Undefined u => Undefined u
  | OutOfFuel => OutOfFuel
  end.

Notation "'do' x ← m ; k" := (bind m (λ x, k))
  (at level 10, x name, m at level 100, k at level 200,
   format "'[v' 'do'  x  ←  m ; '/' k ']'").
Notation "m ;; k" := (bind m (λ _, k))
  (at level 100, k at level 200, right associativity).

Definition throw {A} (e : Exception) : M A := λ w, Thrown e w.
Definition undefined {A} (u : UB) : M A := λ _, Undefined u.
Definition get : M World := λ w, Val w w.
Definition modify (f : World → World) : M unit := λ w, Val tt (f w).
Definition observe (e : Event) : M unit :=
  modify (λ w, set_trace (trace w ++ [e]) w).

(** Run [m]; whichever way it leaves, run [cleanup] (a destructor). *)
Definition finally {A} (m : M A) (cleanup : M unit) : M A := λ w,
  match m w with
  | Val a w' => bind cleanup (λ _, ret a) w'
  | Thrown e w' => bind cleanup (λ _, throw e) w'
  | Undefined u => Undefined u
  | OutOfFuel => OutOfFuel
  end.

(** Access to the object behind a pointer. *)
Definition deref (a : addr) : M CNPLMiniState := λ w,
  match heap w !! a with
  | Some st => Val st w
  | None => Undefined dangling_state
  end.

Definition update (a : addr) (f : CNPLMiniState → CNPLMiniState) : M unit :=
  do st ← deref a;
  modify (λ w, set_heap (<[a := f st]> (heap w)) w).

(** A [shared_ptr] went away: states that nothing points to are destroyed. *)
Definition release : M unit :=
  modify (λ w, set_heap (filter (λ kv, kv.1 ∈ referenced w) (heap w)) w).

(** ** CNPLMiniState *)

(** [this->activate(sNPLFilename, sCode, nCodeLength)] *)
Definition activate (this : addr) (sNPLFilename sCode : option string)
    (nCodeLength : Z) : M NPLReturnCode :=
  update this (λ st,
    set_queue (m_input_queue st
               ++ [NPLMiniMessage_new sNPLFilename sCode nCodeLength]) st) ;;
  ret NPL_OK.

Definition Activate_async (this : addr) (filepath : string)
    (code : option string) (nLength : Z) : M NPLReturnCode :=
  activate this (Some filepath) code nLength.

(** [this->RegisterFileHandler(filename, fileCallback)] without
    [USE_BOOST_SIGNAL_FILE_HANDLER]. *)
Definition RegisterFileHandler (this : addr) (filename : option string)
    (fileCallback : Callback) : M bool :=
  match filename with
  | None => ret false
  | Some sFileName =>
      update this (λ st,
        set_handlers (<[sFileName := fileCallback]> (m_file_handlers_map st)) st) ;;
      ret true
  end.

Definition SetCurrentMessage (this : addr) (msg : option string) (nLength : Z)
  : M unit :=
  update this (set_current msg nLength).

Definition GetCurrentMsg (this : addr) : M (option string) :=
  do st ← deref this; ret (m_current_msg st).

Definition GetCurrentMsgLength (this : addr) : M Z :=
  do st ← deref this; ret (m_current_msg_length st).

(** [this->GetName()] *)
Definition GetName (this : addr) : M string :=
  do st ← deref this; ret (m_name st).

(** ** CNPLMiniRuntimeT: the pool *)

(** [GetRuntimeState(name)] *)
Definition GetRuntimeState (name : string) : M (option addr) :=
  do w ← get;
  if decide (name = "") then ret (m_runtime_state_main w)
  else
    match m_active_state_map w !! name with
    | Some a => ret (Some a)
    | None => ret None
    end.

(** [CreateRuntimeState(name, type_)]; [new NPL_STATE] yields an address at
    which no state exists ([fresh]; the proofs use of it that only). *)
Definition CreateRuntimeState (name : string) : M (option addr) :=
  do runtimestate ← GetRuntimeState name;
  match runtimestate with
  | Some a => ret (Some a)
  | None =>
      do w ← get;
      let a := fresh (dom (heap w)) in
      modify (λ w, set_heap (<[a := CNPLMiniState_new (Some name)]> (heap w)) w) ;;
      modify (λ w, set_states ({[a]} ∪ m_runtime_states w) w) ;;
      (if decide (name = "") then ret tt
       else modify (λ w, set_names (<[name := a]> (m_active_state_map w)) w)) ;;
      ret (Some a)
  end.

(** [CreateGetRuntimeState(name, type_)] *)
Definition CreateGetRuntimeState (name : string) : M (option addr) :=
  do runtimestate ← GetRuntimeState name;
  match runtimestate with
  | Some a => ret (Some a)
  | None => CreateRuntimeState name
  end.

(** [DeleteRuntimeState(runtime_state)]; the argument is a [shared_ptr], so
    a non-null one points to a state that exists, and it goes away when the
    call returns. *)
Definition DeleteRuntimeState (runtime_state : option addr) : M bool :=
  match runtime_state with
  | None => ret true
  | Some a =>
      do st ← deref a;
      do w ← get;
      do result ← (if decide (a ∈ m_runtime_states w) then
                     modify (λ w, set_states (m_runtime_states w ∖ {[a]}) w) ;;
                     ret true
                   else
                     (if decide (m_name st = "") then ret tt
                      else modify (λ w,
                             set_names (delete (m_name st) (m_active_state_map w)) w)) ;;
                     ret false);
      release ;;
      ret result
  end.

(** The [INPLRuntime] entry points, which hand out and take plain pointers. *)
Definition CreateState (name : string) : M (option addr) :=
  CreateRuntimeState name.

Definition GetState (name : option string) : M (option addr) :=
  match name with
  | None => do w ← get; ret (m_runtime_state_main w)
  | Some n => GetRuntimeState n
  end.

Definition CreateGetState (name : string) : M (option addr) :=
  CreateGetRuntimeState name.

Definition DeleteState (pRuntime_state : option addr) : M bool :=
  match pRuntime_state with
  | Some a => DeleteRuntimeState (Some a)
  | None => ret false
  end.

Definition GetMainState : M (option addr) :=
  do w ← get; ret (m_runtime_state_main w).

(** [Init()] *)
Definition Init : M unit :=
  do w ← get;
  match m_runtime_state_main w with
  | Some _ => ret tt
  | None =>
      do main ← CreateRuntimeState "main";
      modify (set_main main)
  end.

(** [Cleanup()] *)
Definition Cleanup : M unit :=
  modify (set_main None) ;;
  modify (set_states ∅) ;;
  modify (set_names ∅) ;;
  release.

(** [Activate(pRuntimeState, sNeuronFile, code, nLength, ...)]; the channel,
    priority and reliability arguments are not used. *)
Definition Activate (pRuntimeState : option addr) (sNeuronFile : option string)
    (code : option string) (nLength : Z) : M IntStatus :=
  match sNeuronFile with
  | None => ret (OfCode NPL_FailedToLoadFile)
  | Some file =>
      match Parse file with
      | Undef u => undefined u
      | Defined FullName =>
          match pRuntimeState with
          | None =>
              do w ← get;
              match m_runtime_state_main w with
              | None => undefined null_dereference
              | Some main =>
                  do r ← Activate_async main (sRelativePath FullName) code nLength;
                  ret (OfCode r)
              end
          | Some from =>
              if decide (sNID FullName = "") then
                if decide (sRuntimeStateName FullName ≠ "") then
                  do rts ← GetRuntimeState (sRuntimeStateName FullName);
                  match rts with
                  | Some a =>
                      do r ← Activate_async a (sRelativePath FullName) code nLength;
                      ret (OfCode r)
                  | None => ret (Literal (-1))
                  end
                else
                  do r ← Activate_async from (sRelativePath FullName) code nLength;
                  ret (OfCode r)
              else ret (OfCode NPL_Error)
          end
      end
  end.

(** ** Callbacks *)

(** One call made by client code that runs on behalf of state [this]. *)
Definition run_action (this : addr) (act : Action) : M unit :=
  match act with
  | ReadCurrentMsg =>
      do msg ← GetCurrentMsg this;
      do len ← GetCurrentMsgLength this;
      observe (EvRead this msg len)
  | CallActivate from_self sNeuronFile code =>
      Activate (if from_self then Some this else None) (Some sNeuronFile) code 0 ;;
      ret tt
  | CallCreateState name => CreateState name ;; ret tt
  | CallDeleteState_self => DeleteState (Some this) ;; ret tt
  | CallDeleteState_named name =>
      do p ← GetState (Some name);
      DeleteState p ;; ret tt
  | ThrowException what => throw (client_exception what)
  end.

Fixpoint run_actions (this : addr) (body : list Action) : M unit :=
  match body with
  | [] => ret tt
  | act :: body' => run_action this act ;; run_actions this body'
  end.

(** [fileCallback(ParaEngine::PluginActType_STATE, this)] *)
Definition invoke (fileCallback : Callback) (this : addr) : M unit :=
  match fileCallback with
  | None => throw bad_function_call
  | Some body => run_actions this body
  end.

(** ** CNPLMiniState: dispatch *)

(** [this->ProcessMsg(msg)]; [push_msg] is the [CCurrentMessage] guard. *)
Definition ProcessMsg (this : addr) (msg : NPLMiniMessage) : M Z :=
  update this (λ st, set_count (m_processed_msg_count st + 1) st) ;;
  (if decide (m_type msg = 0) then
     do st ← deref this;
     match m_file_handlers_map st !! m_sFilename msg with
     | Some fileCallback =>
         SetCurrentMessage this (Some (m_sCode msg))
           (Z.of_nat (String.length (m_sCode msg))) ;;
         finally
           (observe (EvInvoke this (m_sFilename msg) (m_sCode msg)) ;;
            invoke fileCallback this)
           (SetCurrentMessage this None 0)
     | None => ret tt
     end
   else ret tt) ;;
  ret 0.

(** The loop of [Process]: [fuel] bounds the number of iterations that the
    model follows. *)
Fixpoint Process_loop (fuel : nat) (this : addr) (nCount : Z) : M Z :=
  match fuel with
  | O => λ _, OutOfFuel
  | S fuel' =>
      do st ← deref this;
      match m_input_queue st with
      | [] => ret nCount
      | front :: _ =>
          ProcessMsg this front ;;
          update this (λ st, set_queue (tail (m_input_queue st)) st) ;;
          Process_loop fuel' this (nCount + 1)
      end
  end.

(** [this->Process()] *)
Definition Process (fuel : nat) (this : addr) : M Z :=
  observe (EvProcess this) ;;
  Process_loop fuel this 0.

(** ** CNPLMiniRuntimeT: the driver cycle *)

(** [std::set] iterates in the order of [NPLRuntimeState_PtrOps]. *)
Definition in_pointer_order (s : gset addr) : list addr :=
  merge_sort Pos.le (elements s).

(** The second loop of [Run]: [n] steps remain and [itCur] is at index [i]
    of [m_temp_rts_pool]. *)
Fixpoint Run_loop (fuel : nat) (n i : nat) : M unit :=
  match n with
  | O => ret tt
  | S n' =>
      do w ← get;
      match m_temp_rts_pool w !! i with
      | None => undefined invalid_iterator
      | Some a => Process fuel a ;; Run_loop fuel n' (S i)
      end
  end.

(** [Run(bToEnd)] *)
Definition Run (fuel : nat) (bToEnd : bool) : M unit :=
  modify (λ w,
    set_temp (m_temp_rts_pool w ++ in_pointer_order (m_runtime_states w)) w) ;;
  do w ← get;
  Run_loop fuel (length (m_temp_rts_pool w)) 0 ;;
  modify (set_temp []) ;;
  release.

(** The constructor [CNPLMiniRuntimeT()]. *)
Definition CNPLMiniRuntime_new : Outcome unit := Init World_new.

(** The world that the constructor leaves. *)
Definition runtime0 : World :=
  match CNPLMiniRuntime_new with
  | Val _ w => w
  | _ => World_new
  end.

(** ** Routing as the specification words it *)

(** "Enqueues into" a state: the message that [Activate_async] builds is
    appended to the mailbox of the target and the status is [NPL_OK]. *)
Definition enqueue_into (target : option addr) (path : string)
    (code : option string) : M IntStatus := λ w,
  match target with
  | None => Undefined null_dereference
  | Some a =>
      match heap w !! a with
      | None => Undefined dangling_state
      | Some st =>
          let msg :=
            mkNPLMiniMessage path (match code with Some c => c | None => "" end) 0 in
          Val (OfCode NPL_OK)
            (set_heap (<[a := set_queue (m_input_queue st ++ [msg]) st]> (heap w)) w)
      end
  end.

(** The precedence of the specification: a remote address is refused first,
    then an explicit state name is resolved, then the sender's own state is
    taken, and the main state only when there is no sender. *)
Definition Activate_spec (fromState : option addr) (targetText : string)
    (payload : option string) : M IntStatus := λ w,
  match Parse targetText with
  | Undef u => Undefined u
  | Defined address =>
      if decide (sNID address ≠ "") then Val (OfCode NPL_Error) w
      else if decide (sRuntimeStateName address ≠ "") then
        match m_active_state_map w !! sRuntimeStateName address with
        | Some a => enqueue_into (Some a) (sRelativePath address) payload w
        | None => Val (Literal (-1)) w
        end
      else
        match fromState with
        | Some s => enqueue_into (Some s) (sRelativePath address) payload w
        | None =>
            enqueue_into (m_runtime_state_main w) (sRelativePath address) payload w
        end
  end.

(** ** Relating the world before and after *)

(** [R] relates the world before [m] to the world in which [m] leaves,
    whether it returns or raises. *)
Definition preserves (R : World → World → Prop) {A} (m : M A) : Prop :=
  ∀ w, match m w with
       | Val _ w' | Thrown _ w' => R w w'
       | _ => True
       end.

(** The invariant of the pool that the specification states: every state
    that has a name in [m_active_state_map] is in [m_runtime_states]. *)
Definition names_in_states (w : World) : Prop :=
  map_Forall (λ _ a, a ∈ m_runtime_states w) (m_active_state_map w).

(** A property of the world that holds after whenever it holds before. *)
Definition keeps_inv (P : World → Prop) (w w' : World) : Prop := P w → P w'.

(** No state other than [except] exposes a current message:
    [GetCurrentMsg] is null and [GetCurrentMsgLength] is 0 on it. *)
Definition no_current_message (except : option addr) (w : World) : Prop :=
  map_Forall (λ a st, Some a ≠ except →
                m_current_msg st = None ∧ m_current_msg_length st = 0)
    (heap w).

(** The runtime between two dispatches. *)
Definition idle (w : World) : Prop := no_current_message None w.

(** ** Observations on traces and callbacks *)

(** The states on which [Process] was entered, in order. *)
Definition processed (t : list Event) : list addr :=
  omap (λ e, match e with EvProcess a => Some a | _ => None end) t.

(** The callback invocations, in order. *)
Definition invoked (t : list Event) : list (addr * string * string) :=
  omap (λ e, match e with EvInvoke a f c => Some (a, f, c) | _ => None end) t.

(** The entries of [Process] and the invocations recorded so far are the
    same in both worlds, and so is the snapshot vector: what a callback
    leaves untouched. *)
Definition same_dispatches (w w' : World) : Prop :=
  processed (trace w') = processed (trace w)
  ∧ invoked (trace w') = invoked (trace w)
  ∧ m_temp_rts_pool w' = m_temp_rts_pool w.

(** The entries of [Process] recorded so far and the snapshot vector are the
    same in both worlds: what the dispatch of a message leaves untouched. *)
Definition same_cycle (w w' : World) : Prop :=
  processed (trace w') = processed (trace w)
  ∧ m_temp_rts_pool w' = m_temp_rts_pool w.

(** The invocation that [ProcessMsg] makes for [msg] on state [this] with
    the handler map [h]: none when no callback is registered under the
    file name of the message. *)
Definition dispatch_of (this : addr) (h : gmap string Callback)
    (msg : NPLMiniMessage) : option (addr * string * string) :=
  if decide (m_type msg = 0) then
    match h !! m_sFilename msg with
    | Some _ => Some (this, m_sFilename msg, m_sCode msg)
    | None => None
    end
  else None.

(** A callback that, in every world that satisfies [Inv], returns normally,
    leaves the state that dispatches it as it found it (it neither enqueues
    into that state nor destroys it) and re-establishes [Inv]. *)
Definition quiet_in (Inv : World → Prop) (this : addr) (cb : Callback) : Prop :=
  ∃ body, cb = Some body
    ∧ ∀ w st, Inv w → heap w !! this = Some st →
        ∃ w', run_actions this body w = Val tt w'
              ∧ heap w' !! this = Some st ∧ Inv w'.

(** The first [k] iterations of the loop of [Process]: each of them
    dispatches the front message and removes it. *)
Fixpoint Process_iterations (k : nat) (this : addr) : M unit :=
  match k with
  | O => ret tt
  | S k' =>
      do st ← deref this;
      match m_input_queue st with
      | [] => ret tt
      | front :: _ =>
          ProcessMsg this front ;;
          update this (λ st, set_queue (tail (m_input_queue st)) st) ;;
          Process_iterations k' this
      end
  end.

(** What [Process] itself does to the state it runs on: the callbacks stay,
    and the mailbox does not grow. *)
Definition keeps (st st' : CNPLMiniState) : Prop :=
  m_file_handlers_map st' = m_file_handlers_map st
  ∧ (length (m_input_queue st') ≤ length (m_input_queue st))%nat.

(** ** Sample worlds *)

Definition world_after {A} (m : M A) (w : World) : World :=
  match m w with
  | Val _ w' => w'
  | _ => w
  end.

(** The world in which a computation leaves, whether it returns or raises. *)
Definition world_left {A} (m : M A) (w : World) : World :=
  match m w with
  | Val _ w' | Thrown _ w' => w'
  | _ => w
  end.

(** The main state, as [GetMainState] hands it out on [runtime0]. *)
Definition main0 : addr := 1%positive.

(** A second state, ["w1"], is created.  On the main state the callback of
    ["script/fwd.lua"] forwards to ["script/x.lua"] on ["w1"] and the callback
    of ["script/ping.lua"] reads its message; three messages are queued, the
    second of them for a file without a callback. *)
Definition sample_forwarding : World :=
  world_after
    (CreateState "w1" ;;
     RegisterFileHandler main0 (Some "script/fwd.lua")
       (Some [CallActivate true "(w1)script/x.lua" (Some "p")]) ;;
     RegisterFileHandler main0 (Some "script/ping.lua") (Some [ReadCurrentMsg]) ;;
     Activate None (Some "script/fwd.lua") (Some "1") 0 ;;
     Activate None (Some "script/none.lua") (Some "2") 0 ;;
     Activate None (Some "script/ping.lua") (Some "3") 0)
    runtime0.

(** The state that [sample_forwarding] forwards to is in place: the name
    ["w1"] resolves to it and it exists. *)
Definition forwarding_target (w : World) : Prop :=
  m_active_state_map w !! "w1" = Some 2%positive
  ∧ is_Some (heap w !! 2%positive).

(** The callback of ["script/ping.lua"] raises, and two messages are queued
    for it. *)
Definition sample_failing : World :=
  world_after
    (RegisterFileHandler main0 (Some "script/ping.lua")
       (Some [ThrowException "boom"]) ;;
     Activate None (Some "script/ping.lua") (Some "1") 0 ;;
     Activate None (Some "script/ping.lua") (Some "2") 0)
    runtime0.

(** The callback of ["script/ping.lua"] reads its message and the callback
    of ["script/bad.lua"] raises; a message for the first, one for the second
    and one for the first again are queued. *)
Definition sample_mixed : World :=
  world_after
    (RegisterFileHandler main0 (Some "script/ping.lua") (Some [ReadCurrentMsg]) ;;
     RegisterFileHandler main0 (Some "script/bad.lua")
       (Some [ThrowException "boom"]) ;;
     Activate None (Some "script/ping.lua") (Some "1") 0 ;;
     Activate None (Some "script/bad.lua") (Some "2") 0 ;;
     Activate None (Some "script/ping.lua") (Some "3") 0)
    runtime0.


(** A callback is registered under ["script/ping.lua"], then an absent
    callback is registered under the same path, and one message is queued
    for it. *)
Definition sample_unregistered : World :=
  world_after
    (RegisterFileHandler main0 (Some "script/ping.lua") (Some [ReadCurrentMsg]) ;;
     RegisterFileHandler main0 (Some "script/ping.lua") None ;;
     Activate None (Some "script/ping.lua") (Some "1") 0)
    runtime0.

(** ** Callbacks that only read their message and reshape the pool *)

Definition tame (act : Action) : bool :=
  match act with
  | ReadCurrentMsg | CallCreateState _
  | CallDeleteState_self | CallDeleteState_named _ => true
  | CallActivate _ _ _ | ThrowException _ => false
  end.

Definition tame_callback (cb : Callback) : bool :=
  match cb with
  | Some body => forallb tame body
  | None => false
  end.

(** Every callback of the state is tame and its mailbox holds fewer than
    [bound] messages. *)
Definition good (bound : nat) (st : CNPLMiniState) : Prop :=
  map_Forall (λ _ cb, tame_callback cb = true) (m_file_handlers_map st)
  ∧ (length (m_input_queue st) < bound)%nat.

(** The pool during a cycle whose snapshot is [snap]: the snapshot is in
    place, every state that the runtime points to exists, and every state is
    [good]. *)
Definition pool_inv (snap : list addr) (bound : nat) (w : World) : Prop :=
  m_temp_rts_pool w = snap
  ∧ referenced w ⊆ dom (heap w)
  ∧ map_Forall (λ _ st, good bound st) (heap w).

(** The states of the snapshot are as they were. *)
Definition frame (snap : list addr) (w w' : World) : Prop :=
  ∀ b, b ∈ snap → heap w' !! b = heap w !! b.

(** Three states; the callback of ["w1"] reads its message, deletes the
    state it runs on and creates a state ["w3"]; one message is queued for
    it. *)
Definition sample_pool : World :=
  world_after
    (CreateState "w1" ;;
     CreateState "w2" ;;
     RegisterFileHandler 2%positive (Some "script/x.lua")
       (Some [ReadCurrentMsg; CallDeleteState_self; CallCreateState "w3"]) ;;
     Activate (Some main0) (Some "(w1)script/x.lua") (Some "hi") 0)
    runtime0.


(** The callback of ["script/echo.lua"] on the main state answers every
    message by activating the same file on its own state; one message is
    queued for it. *)
Definition sample_echo : World :=
  world_after
    (RegisterFileHandler main0 (Some "script/echo.lua")
       (Some [CallActivate true "script/echo.lua" (Some "again")]) ;;
     Activate None (Some "script/echo.lua") (Some "go") 0)
    runtime0.

(** A cycle of [Run] on [sample_failing] is aborted by the exception of the
    callback; afterwards a callback that reads its message is registered in
    the place of the one that raises. *)
Definition sample_aborted : World :=
  world_after
    (RegisterFileHandler main0 (Some "script/ping.lua") (Some [ReadCurrentMsg]))
    (world_left (Run 5 true) sample_failing).


(** ** Facts about buffers *)

Lemma list_ascii_of_string_app (s t : string) :
  list_ascii_of_string (s +:+ t) = list_ascii_of_string s ++ list_ascii_of_string t.
Proof. induction s as [|c s IH]; simpl; [done | by rewrite IH]. Qed.

Lemma peek_at (p a post : list ascii) (x : ascii) (i : Z) :
  p = a ++ x :: post → i = Z.of_nat (length a) → peek p i = Defined x.
Proof.
  intros -> ->. unfold peek. case_decide; [lia |].
  rewrite Nat2Z.id, lookup_app_r by lia.
  by rewrite Nat.sub_diag.
Qed.

Lemma peek_past (p : list ascii) (i : Z) :
  Z.of_nat (length p) ≤ i → peek p i = Undef out_of_bounds_read.
Proof.
  intros Hi. unfold peek. case_decide; [done |].
  rewrite (lookup_ge_None_2 p) by lia. done.
Qed.

Lemma scan_loop_stops (stop : ascii) (pre post : list ascii) (x : ascii) (i : Z) :
  plain stop pre →
  x = stop ∨ x = NUL →
  scan_loop stop (pre ++ x :: post) i = Defined (i + Z.of_nat (length pre)).
Proof.
  intros Hpre Hx. revert i.
  induction Hpre as [|c pre [Hc1 Hc2] _ IH]; intros i; simpl.
  - destruct Hx as [-> | ->].
    + rewrite decide_True by done. f_equal. lia.
    + case_decide; [f_equal; lia |]. rewrite decide_True by done. f_equal. lia.
  - rewrite !decide_False by done. rewrite IH. f_equal. lia.
Qed.

Lemma scan_stops (stop : ascii) (p a pre post : list ascii) (x : ascii) (i : Z) :
  p = a ++ pre ++ x :: post → i = Z.of_nat (length a) →
  plain stop pre →
  x = stop ∨ x = NUL →
  scan stop p i = Defined (i + Z.of_nat (length pre)).
Proof.
  intros -> -> Hpre Hx. unfold scan. case_decide; [lia |].
  rewrite Nat2Z.id, drop_app_length.
  by rewrite scan_loop_stops.
Qed.

Lemma scan_past (stop : ascii) (p : list ascii) (i : Z) :
  Z.of_nat (length p) ≤ i → scan stop p i = Undef out_of_bounds_read.
Proof.
  intros Hi. unfold scan. case_decide; [done |].
  rewrite drop_ge by lia. done.
Qed.

Lemma assign_middle (p a b c : list ascii) (start n : Z) :
  p = a ++ b ++ c → start = Z.of_nat (length a) → n = Z.of_nat (length b) →
  assign p start n = Defined (string_of_list_ascii b).
Proof.
  intros -> -> ->. unfold assign. rewrite decide_True.
  - by rewrite !Nat2Z.id, drop_app_length, take_app_length.
  - rewrite !length_app. lia.
Qed.

(** ** The branch of [FromString] without a [':'] *)

(** After the optional state prefix [a], a remainder [l] without [':'] is
    taken whole as the relative path. *)
Lemma FromString_namespace_local (p a l : list ascii) (state : string) :
  p = a ++ l ++ [NUL] → plain ":"%char l →
  FromString_namespace p state (Z.of_nat (length a))
  = Defined (mkNPLFileName state "" (string_of_list_ascii l) "").
Proof.
  intros -> Hl. unfold FromString_namespace.
  erewrite (scan_stops _ _ a l [] NUL); [| done | done | done | by right].
  simpl.
  erewrite (peek_at _ (a ++ l) []); [| by rewrite <- (assoc_L (++)) | rewrite length_app; lia].
  simpl.
  erewrite (assign_middle _ a l [NUL]); [done | done | done | lia].
Qed.

Lemma activation_type_closed (p name post : list ascii) :
  p = "("%char :: name ++ ")"%char :: post → plain ")"%char name →
  activation_type p
  = Defined (if decide (name = ["g"; "l"]%char) then ""
             else string_of_list_ascii name,
             Z.of_nat (length name) + 2).
Proof.
  intros -> Hname. unfold activation_type.
  erewrite (scan_stops _ _ ["("%char] name post ")"%char);
    [| done | done | done | by left].
  simpl.
  replace (1 + Z.of_nat (length name) + 1) with (Z.of_nat (length name) + 2) by lia.
  case_decide as Hlen.
  - assert (length name = 2%nat) as Hlen2 by lia.
    destruct name as [|c1 [|c2 [|c3 name]]]; try discriminate Hlen2.
    set (p := "("%char :: [c1; c2] ++ ")"%char :: post).
    assert (peek p 1 = Defined c1) as -> by reflexivity.
    assert (peek p 2 = Defined c2) as -> by reflexivity.
    assert (assign p 1 (Z.of_nat (length [c1; c2]) + 2 - 2)
            = Defined (string_of_list_ascii [c1; c2])) as ->
      by by apply (assign_middle _ ["("%char] [c1; c2] (")"%char :: post)).
    simpl. case_decide as Hg; simpl.
    + case_bool_decide as Hl; simpl.
      * subst. by rewrite decide_True.
      * rewrite decide_False by congruence. done.
    + rewrite decide_False by congruence. done.
  - simpl. rewrite decide_False.
    + erewrite (assign_middle _ ["("%char] name (")"%char :: post));
        [done | done | done | lia].
    + intros ->. by apply Hlen.
Qed.

Lemma activation_type_open (name : list ascii) :
  plain ")"%char name →
  ∃ state, activation_type ("("%char :: name ++ [NUL])
           = Defined (state, Z.of_nat (length name) + 2).
Proof.
  intros Hname. unfold activation_type.
  erewrite (scan_stops _ _ ["("%char] name [] NUL);
    [| done | done | done | by right].
  simpl.
  replace (1 + Z.of_nat (length name) + 1) with (Z.of_nat (length name) + 2) by lia.
  case_decide as Hlen.
  - assert (length name = 2%nat) as Hlen2 by lia.
    destruct name as [|c1 [|c2 [|c3 name]]]; try discriminate Hlen2.
    set (p := "("%char :: [c1; c2] ++ [NUL]).
    assert (peek p 1 = Defined c1) as -> by reflexivity.
    assert (peek p 2 = Defined c2) as -> by reflexivity.
    assert (assign p 1 (Z.of_nat (length [c1; c2]) + 2 - 2)
            = Defined (string_of_list_ascii [c1; c2])) as ->
      by by apply (assign_middle _ ["("%char] [c1; c2] [NUL]).
    simpl. case_decide; simpl; [case_bool_decide; simpl |]; by eexists.
  - simpl.
    erewrite (assign_middle _ ["("%char] name [NUL]);
      [by eexists | done | done | lia].
Qed.

(** An opening ['('] that is never closed: the block leaves [i] one past
    the terminator, and the next loop reads [sFilePath[i]]. *)
Lemma FromString_open_paren (this : NPLFileName) (name : list ascii) :
  plain ")"%char name →
  FromString this (string_of_list_ascii ("("%char :: name))
  = Undef out_of_bounds_read.
Proof.
  intros Hname. unfold FromString, c_str.
  rewrite list_ascii_of_string_of_list_ascii.
  assert (peek (("("%char :: name) ++ [NUL]) 0 = Defined "("%char) as ->
    by reflexivity.
  simpl.
  destruct (activation_type_open name Hname) as [state ->]. simpl.
  unfold FromString_namespace.
  rewrite scan_past; [done |]. simpl. rewrite length_app. simpl. lia.
Qed.

(** A text that does not open with ['('] and has no [':']. *)
Lemma FromString_local (this : NPLFileName) (c : ascii) (l : list ascii) :
  c ≠ "("%char → plain ":"%char (c :: l) →
  FromString this (string_of_list_ascii (c :: l))
  = Defined (mkNPLFileName (sRuntimeStateName this) ""
               (string_of_list_ascii (c :: l)) "").
Proof.
  intros Hc Hl. unfold FromString, c_str.
  rewrite list_ascii_of_string_of_list_ascii.
  assert (peek ((c :: l) ++ [NUL]) 0 = Defined c) as -> by reflexivity.
  simpl. pose proof (Forall_inv Hl) as [_ Hnul]. simpl in Hnul.
  rewrite !decide_False by done. simpl.
  by apply (FromString_namespace_local _ [] (c :: l)).
Qed.

(** A text ["(" name ")" rest] whose [rest] has no [':']. *)
Lemma FromString_named_local (this : NPLFileName) (name rest : list ascii) :
  plain ")"%char name → plain ":"%char rest →
  FromString this
    (string_of_list_ascii ("("%char :: name ++ ")"%char :: rest))
  = Defined (mkNPLFileName
               (if decide (name = ["g"; "l"]%char) then ""
                else string_of_list_ascii name)
               "" (string_of_list_ascii rest) "").
Proof.
  intros Hname Hrest. unfold FromString, c_str.
  rewrite list_ascii_of_string_of_list_ascii.
  assert (peek (("("%char :: name ++ ")"%char :: rest) ++ [NUL]) 0
          = Defined "("%char) as -> by reflexivity.
  simpl.
  erewrite (activation_type_closed _ name (rest ++ [NUL]));
    [| by rewrite <- (assoc_L (++)) | done].
  simpl.
  replace (Z.of_nat (length name) + 2)
    with (Z.of_nat (length ("("%char :: name ++ [")"%char]))).
  - apply FromString_namespace_local; [| done].
    simpl. by rewrite <- !(assoc_L (++)).
  - simpl. rewrite length_app. simpl. lia.
Qed.

Lemma split_at_app (c : ascii) (l a b : list ascii) :
  split_at c l = Some (a, b) → l = a ++ c :: b ∧ Forall (λ x, x ≠ c) a.
Proof.
  revert a b. induction l as [|x l IH]; intros a b; simpl; [done |].
  case_decide as Hx.
  - intros [= <- <-]. by subst.
  - destruct (split_at c l) as [[a' b'] |]; [| done].
    intros [= <- <-]. destruct (IH a' b' eq_refl) as [-> Ha].
    split; [done | by constructor].
Qed.

Lemma plain_app (stop : ascii) (l1 l2 : list ascii) :
  plain stop (l1 ++ l2) ↔ plain stop l1 ∧ plain stop l2.
Proof. apply Forall_app. Qed.

Lemma plain_change (stop stop' : ascii) (l : list ascii) :
  plain stop l → Forall (λ x, x ≠ stop') l → plain stop' l.
Proof.
  unfold plain. rewrite !Forall_forall. intros H1 H2 x Hx.
  split; [by apply H2 | by apply H1].
Qed.

(** The address of a text without [':'], exactly. *)
Lemma Parse_no_colon_exact (text : string) (name rest : list ascii) :
  text ≠ "" →
  plain ":"%char (list_ascii_of_string text) →
  state_prefix (list_ascii_of_string text) = Some (name, rest) →
  Parse text
  = Defined (mkNPLFileName
               (if decide (name = ["g"; "l"]%char) then ""
                else string_of_list_ascii name)
               "" (string_of_list_ascii rest) "").
Proof.
  intros Hne Hplain Hprefix. unfold Parse.
  rewrite <- (string_of_list_ascii_of_string text).
  destruct (list_ascii_of_string text) as [|c l] eqn:Hl.
  { destruct text; [done | discriminate Hl]. }
  simpl in Hprefix. case_decide as Hc.
  - subst c. apply split_at_app in Hprefix as [-> Hname].
    apply Forall_cons in Hplain as [_ Hplain].
    apply plain_app in Hplain as [Hpn Hpr].
    apply Forall_cons in Hpr as [_ Hpr].
    apply FromString_named_local; [| done].
    by eapply plain_change.
  - injection Hprefix as <- <-.
    rewrite decide_False by done.
    by apply FromString_local.
Qed.

(** C10.  A text without [':'] takes the branch of [FromString] that assigns
    the rest of the text to the path as it is: on [a\b@d] the path is the
    whole text, the backslash and the resolver suffix included, and the
    resolver name is empty, where the specification expects the path [a/b] and the
    resolver name [d].  The sibling branch gives just that once a [':'] is
    there, and [ToString] writes the text [a/b@d] for the address without
    network id, which [Parse] does not read back. *)
Theorem Parse_no_colon_skips_resolver_and_slashes :
  Parse "a\b@d" = Defined (mkNPLFileName "" "" "a\b@d" "")
  ∧ ¬ no_colon_spec "a\b@d" (mkNPLFileName "" "" "a\b@d" "")
  ∧ no_colon_spec "a\b@d" (mkNPLFileName "" "" "a/b" "d")
  ∧ Parse ":a\b@d" = Defined (mkNPLFileName "" "" "a/b" "d")
  ∧ ToString (mkNPLFileName "" "" "a/b" "d") = "a/b@d"
  ∧ Parse "a/b@d" = Defined (mkNPLFileName "" "" "a/b@d" "")
  ∧ Parse "a@d" = Defined (mkNPLFileName "" "" "a@d" "")
  ∧ Parse "a\b" = Defined (mkNPLFileName "" "" "a\b" "").
Proof.
  split; [reflexivity |]. split.
  { intros [_ [H _]]. discriminate H. }
  split; [by split |]. repeat split; reflexivity.
Qed.

(** C9.  On a text that opens with ['('] and never closes it, [FromString]
    steps over the terminator and the next loop reads the character behind
    it: the read is outside the input.  (The specification expects every inspected
    character to lie within the input, this input included.) *)
Theorem Parse_unclosed_paren_reads_past_terminator :
  Parse "(abc" = Undef out_of_bounds_read
  ∧ Parse "(" = Undef out_of_bounds_read
  ∧ Parse "(gl" = Undef out_of_bounds_read.
Proof. repeat split; reflexivity. Qed.

(** ** Serialisation and the round trip *)

Lemma alphabetic_plain (stop : ascii) (l : list ascii) :
  alphabetic stop = false →
  Forall (λ c, alphabetic c = true) l → plain stop l.
Proof.
  unfold plain. rewrite !Forall_forall. intros Hstop Hl c Hc.
  apply Hl in Hc. split; intros ->; [congruence | discriminate Hc].
Qed.

(** X6.  A local address survives serialisation and parsing, up to the
    normalisation of the state name ["gl"]. *)
Lemma Parse_ToString_local (state path : string) :
  path ≠ "" → alphabetic_text path → alphabetic_text state →
  Parse (ToString (mkNPLFileName state "" path ""))
  = Defined (mkNPLFileName (if decide (state = "gl") then "" else state)
               "" path "").
Proof.
  intros Hpath Hap Has. unfold ToString. simpl.
  rewrite (decide_False (P := path = "")) by done.
  destruct (decide (state = "")) as [-> | Hstate]; simpl.
  - change ("" +:+ path) with path.
    rewrite (Parse_no_colon_exact path [] (list_ascii_of_string path)).
    + by rewrite string_of_list_ascii_of_string.
    + done.
    + apply alphabetic_plain; [reflexivity | exact Hap].
    + unfold alphabetic_text in Hap.
      destruct (list_ascii_of_string path) as [|c l]; [done |]. simpl.
      rewrite decide_False; [done |].
      intros ->. apply Forall_inv in Hap. discriminate Hap.
  - change ("" +:+ "(") with "(".
    rewrite (Parse_no_colon_exact _ (list_ascii_of_string state)
               (list_ascii_of_string path)).
    + rewrite !string_of_list_ascii_of_string. f_equal. f_equal.
      destruct (decide (state = "gl")) as [-> | Hgl]; [done |].
      rewrite decide_False; [done |].
      intros Heq. apply Hgl.
      by rewrite <- (string_of_list_ascii_of_string state), Heq.
    + done.
    + rewrite !list_ascii_of_string_app. simpl.
      rewrite <- (assoc_L (++)). simpl.
      constructor; [done |]. apply plain_app. split.
      * apply alphabetic_plain; [reflexivity | exact Has].
      * constructor; [done |]. apply alphabetic_plain; [reflexivity | exact Hap].
    + rewrite !list_ascii_of_string_app. simpl.
      rewrite <- (assoc_L (++)). simpl.
      generalize (alphabetic_plain ")"%char _ eq_refl Has).
      generalize (list_ascii_of_string path) as rest.
      induction (list_ascii_of_string state) as [|c l IH]; intros rest Hl; simpl.
      * done.
      * apply Forall_cons in Hl as [[Hc _] Hl].
        rewrite decide_False by done. by rewrite (IH rest Hl).
Qed.

Lemma Parse_ToString_local_witness :
  "abc" ≠ ""
  ∧ alphabetic_text "abc" ∧ alphabetic_text "w"
  ∧ Parse (ToString (mkNPLFileName "w" "" "abc" ""))
    = Defined (mkNPLFileName "w" "" "abc" "").
Proof.
  assert ("abc" ≠ "") as H1 by done.
  assert (alphabetic_text "abc") as H2 by (repeat constructor).
  assert (alphabetic_text "w") as H3 by (repeat constructor).
  split; [exact H1 |]. split; [exact H2 |]. split; [exact H3 |].
  exact (Parse_ToString_local "w" "abc" H1 H2 H3).
Defined.

(** C2.  [ToString] writes the network id without the [':'] that separates
    it from the path, so the address with network id ["n"] and path ["p"] is
    serialised as ["np"] and parsed back as the local path ["np"]; the text
    ["n:p"] that the documented format prescribes parses back to the address.
    (The specification expects the round trip to return the address.) *)
Theorem ToString_drops_colon :
  ToString (mkNPLFileName "" "n" "p" "") = "np"
  ∧ Parse (ToString (mkNPLFileName "" "n" "p" ""))
    = Defined (mkNPLFileName "" "" "np" "")
  ∧ Parse "n:p" = Defined (mkNPLFileName "" "n" "p" "").
Proof. repeat split; reflexivity. Qed.


(** ** Where [FromString] is defined *)

Lemma scan_loop_defined (stop : ascii) (rest : list ascii) (i : Z) :
  NUL ∈ rest →
  ∃ j, scan_loop stop rest i = Defined j
       ∧ i ≤ j < i + Z.of_nat (length rest).
Proof.
  revert i. induction rest as [|c rest IH]; intros i Hnul.
  - by apply elem_of_nil in Hnul.
  - simpl. case_decide; [exists i; split; [done | lia] |].
    case_decide; [exists i; split; [done | lia] |].
    apply elem_of_cons in Hnul as [Heq | Hnul]; [congruence |].
    destruct (IH (i + 1) Hnul) as (j & -> & Hj). exists j. split; [done | lia].
Qed.

Lemma scan_defined (stop : ascii) (l : list ascii) (i : Z) :
  0 ≤ i ≤ Z.of_nat (length l) →
  ∃ j, scan stop (l ++ [NUL]) i = Defined j ∧ i ≤ j ≤ Z.of_nat (length l).
Proof.
  intros Hi. unfold scan. case_decide; [lia |].
  destruct (scan_loop_defined stop (drop (Z.to_nat i) (l ++ [NUL])) i)
    as (j & -> & Hj).
  - rewrite drop_app_le by lia. set_solver.
  - exists j. split; [done |].
    rewrite length_drop, length_app in Hj. simpl in Hj. lia.
Qed.

Lemma peek_defined (l : list ascii) (i : Z) :
  0 ≤ i ≤ Z.of_nat (length l) →
  ∃ c, peek (l ++ [NUL]) i = Defined c
       ∧ (c ≠ NUL → i < Z.of_nat (length l)).
Proof.
  intros Hi. unfold peek. case_decide; [lia |].
  destruct (decide (i = Z.of_nat (length l))) as [-> | Hne].
  - rewrite Nat2Z.id, lookup_app_r, Nat.sub_diag by lia. simpl.
    exists NUL. done.
  - destruct (lookup_lt_is_Some_2 l (Z.to_nat i)) as [c Hc]; [lia |].
    rewrite lookup_app_l, Hc by lia. exists c. split; [done | lia].
Qed.

Lemma assign_defined (l : list ascii) (start n : Z) :
  0 ≤ start → 0 ≤ n → start + n ≤ Z.of_nat (length l) + 1 →
  ∃ s, assign (l ++ [NUL]) start n = Defined s.
Proof.
  intros H1 H2 H3. unfold assign. rewrite decide_True; [by eexists |].
  rewrite length_app. simpl. lia.
Qed.

Lemma until_nul_defined (rest : list ascii) :
  NUL ∈ rest → ∃ r, until_nul rest = Defined r.
Proof.
  induction rest as [|c rest IH]; intros Hnul.
  - by apply elem_of_nil in Hnul.
  - simpl. case_decide; [by eexists |].
    apply elem_of_cons in Hnul as [Heq | Hnul]; [congruence |].
    destruct (IH Hnul) as [r ->]. by eexists.
Qed.

Lemma SetRelativePath_defined (l : list ascii) (start nCount : Z) :
  0 ≤ start → 0 ≤ nCount → start + nCount ≤ Z.of_nat (length l) →
  ∃ s, SetRelativePath (l ++ [NUL]) start nCount = Defined s.
Proof.
  intros H1 H2 H3. unfold SetRelativePath. case_decide.
  - unfold assign_cstr. case_decide; [lia |].
    destruct (until_nul_defined (drop (Z.to_nat start) (l ++ [NUL]))) as [r ->].
    + rewrite drop_app_le by lia. set_solver.
    + by eexists.
  - destruct (assign_defined l start nCount) as [s ->]; [lia .. |]. by eexists.
Qed.

(** From [/// get namespace] on, every read is inside the buffer once the
    entry index is. *)
Lemma FromString_namespace_defined (l : list ascii) (state : string) (i : Z) :
  0 ≤ i ≤ Z.of_nat (length l) →
  ∃ r, FromString_namespace (l ++ [NUL]) state i = Defined r.
Proof.
  intros Hi. unfold FromString_namespace.
  destruct (scan_defined ":"%char l i Hi) as (i1 & -> & Hi1). simpl.
  destruct (peek_defined l i1) as (c1 & -> & Hc1); [lia |]. simpl.
  case_decide as Hnul1.
  - destruct (assign_defined l i (i1 - i)) as [path ->]; [lia .. |].
    by eexists.
  - specialize (Hc1 Hnul1).
    assert (∃ nid, (if decide (i1 > i) then assign (l ++ [NUL]) i (i1 - i)
                    else Defined "") = Defined nid) as [nid ->].
    { case_decide; [| by eexists]. apply assign_defined; lia. }
    simpl.
    destruct (scan_defined "@"%char l (i1 + 1)) as (i2 & -> & Hi2); [lia |].
    simpl.
    destruct (SetRelativePath_defined l (i1 + 1) (i2 - (i1 + 1)))
      as [path ->]; [lia .. |].
    simpl.
    destruct (peek_defined l i2) as (c2 & -> & Hc2); [lia |]. simpl.
    case_decide as Hnul2; [by eexists |]. specialize (Hc2 Hnul2).
    destruct (scan_defined NUL l (i2 + 1)) as (i3 & -> & Hi3); [lia |].
    simpl.
    destruct (assign_defined l (i2 + 1) (i3 - (i2 + 1))) as [dns ->];
      [lia .. |].
    by eexists.
Qed.

Lemma split_at_None (c : ascii) (l : list ascii) :
  split_at c l = None → Forall (λ x, x ≠ c) l.
Proof.
  induction l as [|x l IH]; simpl; [done |].
  case_decide; [done |].
  destruct (split_at c l) as [[a b] |]; [done |].
  intros _. constructor; [done | by apply IH].
Qed.

Lemma Parse_defined_chars (l : list ascii) :
  Forall (λ c, c ≠ NUL) l →
  (∃ r, Parse (string_of_list_ascii l) = Defined r) ↔ is_Some (state_prefix l).
Proof.
  intros Hnul. destruct l as [|c l].
  { split; [by eexists | intros _; eexists; reflexivity]. }
  apply Forall_cons in Hnul as [Hc Hnul].
  destruct (decide (c = "("%char)) as [-> | Hparen].
  - destruct (split_at ")"%char l) as [[name rest] |] eqn:Hsplit.
    + split; [intros _; simpl; by rewrite Hsplit |]. intros _.
      apply split_at_app in Hsplit as [-> Hname].
      apply Forall_app in Hnul as [Hn1 Hn2].
      unfold Parse, FromString, c_str.
      rewrite list_ascii_of_string_of_list_ascii.
      assert (peek (("("%char :: name ++ ")"%char :: rest) ++ [NUL]) 0
              = Defined "("%char) as -> by reflexivity.
      simpl.
      erewrite (activation_type_closed _ name (rest ++ [NUL]));
        [| by rewrite <- (assoc_L (++)) | by apply Forall_and].
      simpl.
      apply (FromString_namespace_defined ("("%char :: name ++ ")"%char :: rest)).
      simpl. rewrite length_app. simpl. lia.
    + split.
      * intros [r Hr]. unfold Parse in Hr.
        rewrite FromString_open_paren in Hr; [done |].
        apply Forall_and. split; [by apply split_at_None | done].
      * simpl. rewrite Hsplit. by intros [? ?].
  - split; [intros _; simpl; by rewrite decide_False |]. intros _.
    unfold Parse, FromString, c_str.
    rewrite list_ascii_of_string_of_list_ascii.
    assert (peek ((c :: l) ++ [NUL]) 0 = Defined c) as -> by reflexivity.
    simpl. rewrite !decide_False by done. simpl.
    apply (FromString_namespace_defined (c :: l)). simpl. lia.
Qed.

(** X7.  On a well-formed C string, [Parse] has defined behaviour exactly
    when the text does not open with a ['('] that is never closed. *)
Lemma Parse_defined_iff (text : string) :
  Forall (λ c, c ≠ NUL) (list_ascii_of_string text) →
  (∃ r, Parse text = Defined r)
  ↔ is_Some (state_prefix (list_ascii_of_string text)).
Proof.
  intros Hnul. pose proof (Parse_defined_chars _ Hnul) as H.
  by rewrite string_of_list_ascii_of_string in H.
Qed.

Lemma Parse_defined_iff_witness :
  Forall (λ c, c ≠ NUL) (list_ascii_of_string "(w)n:a@d")
  ∧ ((∃ r, Parse "(w)n:a@d" = Defined r)
     ↔ is_Some (state_prefix (list_ascii_of_string "(w)n:a@d"))).
Proof.
  assert (Forall (λ c, c ≠ NUL) (list_ascii_of_string "(w)n:a@d")) as H1
    by (apply (bool_decide_unpack _); vm_compute; exact I).
  split; [exact H1 |]. exact (Parse_defined_iff "(w)n:a@d" H1).
Defined.

(** The empty text yields the address with every field empty. *)
Example Parse_empty : Parse "" = Defined (mkNPLFileName "" "" "" "").
Proof. reflexivity. Qed.

(** With an empty network id, a resolver name is serialised after ['@'] and
    parsed back as part of the path. *)
Example Parse_ToString_resolver_only :
  ToString (mkNPLFileName "" "" "p" "d") = "p@d"
  ∧ Parse "p@d" = Defined (mkNPLFileName "" "" "p@d" "").
Proof. split; reflexivity. Qed.


(** ** The pool: lookup, creation and deletion *)

Lemma GetRuntimeState_named (name : string) (w : World) :
  name ≠ "" →
  GetRuntimeState name w = Val (m_active_state_map w !! name) w.
Proof.
  intros Hname. unfold GetRuntimeState, bind, get. simpl.
  rewrite decide_False by done. by destruct (m_active_state_map w !! name).
Qed.

Lemma GetRuntimeState_empty (w : World) :
  GetRuntimeState "" w = Val (m_runtime_state_main w) w.
Proof. reflexivity. Qed.

(** Get-or-create: a name that the pool knows yields the state registered
    under it, and nothing is created. *)
Lemma CreateRuntimeState_existing (name : string) (a : addr) (w : World) :
  name ≠ "" → m_active_state_map w !! name = Some a →
  CreateRuntimeState name w = Val (Some a) w.
Proof.
  intros Hname Ha. unfold CreateRuntimeState, bind.
  rewrite GetRuntimeState_named by done. by rewrite Ha.
Qed.

(** With a main state in place, the empty name is answered by
    [GetRuntimeState] with the main state, so nothing is created. *)
Lemma CreateRuntimeState_empty_main (main : addr) (w : World) :
  m_runtime_state_main w = Some main →
  CreateRuntimeState "" w = Val (Some main) w.
Proof.
  intros Hmain. unfold CreateRuntimeState, bind.
  rewrite GetRuntimeState_empty. by rewrite Hmain.
Qed.

(** Only without a main state does the empty name create a state. *)
Lemma CreateRuntimeState_empty_no_main (w : World) :
  m_runtime_state_main w = None →
  let a := fresh (dom (heap w)) in
  CreateRuntimeState "" w
  = Val (Some a)
      (set_states ({[a]} ∪ m_runtime_states w)
         (set_heap (<[a := CNPLMiniState_new (Some "")]> (heap w)) w)).
Proof.
  intros Hmain a. unfold CreateRuntimeState, bind.
  rewrite GetRuntimeState_empty. by rewrite Hmain.
Qed.

(** A state found in [m_runtime_states] is erased from it and the function
    returns at once: [m_active_state_map] is left as it was. *)
Lemma DeleteRuntimeState_found (a : addr) (st : CNPLMiniState) (w : World) :
  heap w !! a = Some st → a ∈ m_runtime_states w →
  ∃ w', DeleteRuntimeState (Some a) w = Val true w'
        ∧ m_runtime_states w' = m_runtime_states w ∖ {[a]}
        ∧ m_active_state_map w' = m_active_state_map w.
Proof.
  intros Hst Ha. unfold DeleteRuntimeState, bind, deref, get. rewrite Hst.
  rewrite decide_True by done. simpl. by eexists.
Qed.

(** C4.  On the runtime as its constructor leaves it, [CreateState] with
    the empty name, called twice, creates nothing: both calls return the main
    state, so the two results are one instance and that instance is
    [mainState]; the world is unchanged.  (The specification expects two distinct
    fresh anonymous instances, neither of them the main state.)  The other
    half of the property holds there: a second [CreateState] with the name
    ["w1"] returns the instance that the first one created. *)
Theorem CreateState_empty_name_yields_main :
  ∃ main,
    m_runtime_state_main runtime0 = Some main
    ∧ (do a ← CreateState ""; do b ← CreateState ""; ret (a, b)) runtime0
      = Val (Some main, Some main) runtime0
    ∧ ∃ a w1,
        CreateState "w1" runtime0 = Val (Some a) w1
        ∧ a ≠ main
        ∧ CreateState "w1" w1 = Val (Some a) w1.
Proof.
  exists 1%positive. split; [reflexivity |]. split; [reflexivity |].
  eexists 2%positive, _. split; [vm_compute; reflexivity |].
  split; [done |]. vm_compute. reflexivity.
Qed.

(** C5.  A state named ["w1"] is created on a fresh runtime, where the
    invariant [names_in_states] holds, and then deleted.  [DeleteState]
    returns [true] and the state leaves [m_runtime_states], but its entry in
    [m_active_state_map] stays: the name still resolves to the deleted state
    and the invariant no longer holds.  (The specification expects the state to
    leave both collections and the invariant to be preserved.) *)
Theorem DeleteState_leaves_name :
  ∃ a w1 w2,
    CreateState "w1" runtime0 = Val (Some a) w1
    ∧ a ∈ m_runtime_states w1
    ∧ names_in_states w1
    ∧ DeleteState (Some a) w1 = Val true w2
    ∧ (a ∉ m_runtime_states w2)
    ∧ m_active_state_map w2 !! "w1" = Some a
    ∧ GetState (Some "w1") w2 = Val (Some a) w2
    ∧ ¬ names_in_states w2.
Proof.
  eexists 2%positive, _, _.
  split; [vm_compute; reflexivity |].
  split; [vm_compute; done |].
  split; [apply (bool_decide_unpack _); vm_compute; exact I |].
  split; [vm_compute; reflexivity |].
  split; [vm_compute; done |].
  split; [vm_compute; reflexivity |].
  split; [vm_compute; reflexivity |].
  intros H. specialize (H "w1" 2%positive). vm_compute in H.
  by specialize (H eq_refl).
Qed.

(** ** Routing *)

Lemma Activate_async_enqueues (a : addr) (path : string) (code : option string)
    (n : Z) (w : World) :
  (do r ← Activate_async a path code n; ret (OfCode r)) w
  = enqueue_into (Some a) path code w.
Proof.
  unfold Activate_async, activate, update, bind, deref, enqueue_into. simpl.
  destruct (heap w !! a) as [st|]; [| done]. simpl.
  unfold NPLMiniMessage_new. by destruct code; [case_decide |].
Qed.

(** A null file name is refused before anything is parsed. *)
Lemma Activate_null_file (from : option addr) (code : option string) (n : Z)
    (w : World) :
  Activate from None code n w = Val (OfCode NPL_FailedToLoadFile) w.
Proof. reflexivity. Qed.

(** C1, counterexample.  Without a sender, a text that names a remote node
    (["n:f"]) is not refused: the message is enqueued into the main state and
    the status is [NPL_OK], where the specified precedence answers
    [NPL_Error] and enqueues nothing. *)
Lemma Activate_without_sender_ignores_address :
  Activate None (Some "n:f") (Some "x") 0 runtime0
  = enqueue_into (Some main0) "f" (Some "x") runtime0
  ∧ Activate_spec None "n:f" (Some "x") runtime0
    = Val (OfCode NPL_Error) runtime0
  ∧ Activate None (Some "n:f") (Some "x") 0 runtime0
    ≠ Activate_spec None "n:f" (Some "x") runtime0.
Proof.
  split; [vm_compute; reflexivity |]. split; [vm_compute; reflexivity |].
  intros H.
  apply (f_equal (λ o, match o with Val r _ => Some r | _ => None end)) in H.
  vm_compute in H. discriminate H.
Qed.

(** C1, as amended.  With a sender, [Activate] follows the specified
    precedence: a non-empty network id is refused with [NPL_Error]; else a
    non-empty state name is resolved and the message enqueued there, with
    status -1 when the pool has no such name; else the message is enqueued
    into the sender.  Without a sender the address is not consulted beyond
    its path: the message is always enqueued into the main state. *)
Theorem Activate_routing (fromState : option addr) (targetText : string)
    (payload : option string) (nLength : Z) (w : World) :
  Activate fromState (Some targetText) payload nLength w
  = match fromState with
    | Some s => Activate_spec (Some s) targetText payload w
    | None =>
        match Parse targetText with
        | Undef u => Undefined u
        | Defined address =>
            enqueue_into (m_runtime_state_main w) (sRelativePath address) payload w
        end
    end.
Proof.
  unfold Activate, Activate_spec.
  destruct (Parse targetText) as [address | u]; [| by destruct fromState].
  destruct fromState as [s |].
  - destruct (decide (sNID address = "")) as [Hnid | Hnid].
    + rewrite (decide_False (P := sNID address ≠ "")) by naive_solver.
      destruct (decide (sRuntimeStateName address ≠ "")) as [Hname | Hname].
      * unfold bind at 1. rewrite GetRuntimeState_named by done.
        destruct (m_active_state_map w !! sRuntimeStateName address) as [a |];
          [| done].
        apply Activate_async_enqueues.
      * apply Activate_async_enqueues.
    + by rewrite (decide_True (P := sNID address ≠ "")).
  - unfold bind at 1, get at 1.
    destruct (m_runtime_state_main w) as [main |]; [| done].
    apply Activate_async_enqueues.
Qed.


(** ** Reasoning about computations *)

Lemma deref_Some (a : addr) (st : CNPLMiniState) (w : World) :
  heap w !! a = Some st → deref a w = Val st w.
Proof. intros H. unfold deref. by rewrite H. Qed.

Lemma update_Some (a : addr) (f : CNPLMiniState → CNPLMiniState)
    (st : CNPLMiniState) (w : World) :
  heap w !! a = Some st →
  update a f w = Val tt (set_heap (<[a := f st]> (heap w)) w).
Proof. intros H. unfold update, bind. by rewrite (deref_Some a st). Qed.

Lemma bind_Val {A B} (m : M A) (k : A → M B) (w w' : World) (a : A) :
  m w = Val a w' → bind m k w = k a w'.
Proof. intros H. unfold bind. by rewrite H. Qed.

Lemma bind_Thrown {A B} (m : M A) (k : A → M B) (w w' : World) (e : Exception) :
  m w = Thrown e w' → bind m k w = Thrown e w'.
Proof. intros H. unfold bind. by rewrite H. Qed.

Lemma bind_assoc {A B C} (m : M A) (k : A → M B) (k' : B → M C) (w : World) :
  bind (bind m k) k' w = bind m (λ a, bind (k a) k') w.
Proof. unfold bind. by destruct (m w). Qed.

Lemma finally_Val {A} (m : M A) (c : M unit) (w w1 w2 : World) (a : A) :
  m w = Val a w1 → c w1 = Val tt w2 → finally m c w = Val a w2.
Proof. intros Hm Hc. unfold finally, bind. by rewrite Hm, Hc. Qed.

Lemma finally_Thrown {A} (m : M A) (c : M unit) (w w1 w2 : World)
    (e : Exception) :
  m w = Thrown e w1 → c w1 = Val tt w2 → finally m c w = Thrown e w2.
Proof. intros Hm Hc. unfold finally, bind. by rewrite Hm, Hc. Qed.

(** A relation between the world before and the world after that holds
    however the computation leaves. *)
Section Preserves.
Context (R : World → World → Prop) `{!Reflexive R} `{!Transitive R}.

Lemma preserves_ret {A} (a : A) : preserves R (ret a).
Proof. intros w. simpl. reflexivity. Qed.

Lemma preserves_throw {A} (e : Exception) : preserves R (throw (A := A) e).
Proof. intros w. simpl. reflexivity. Qed.

Lemma preserves_undefined {A} (u : UB) : preserves R (undefined (A := A) u).
Proof. by intros w. Qed.

Lemma preserves_get : preserves R get.
Proof. intros w. simpl. reflexivity. Qed.

Lemma preserves_deref (a : addr) : preserves R (deref a).
Proof. intros w. unfold deref. destruct (heap w !! a); [reflexivity | done]. Qed.

Lemma preserves_modify (f : World → World) :
  (∀ w, R w (f w)) → preserves R (modify f).
Proof. intros Hf w. apply Hf. Qed.

Lemma preserves_bind {A B} (m : M A) (k : A → M B) :
  preserves R m → (∀ a, preserves R (k a)) → preserves R (bind m k).
Proof.
  intros Hm Hk w. unfold bind. specialize (Hm w).
  destruct (m w) as [a w' | e w' | u |]; [| done ..].
  specialize (Hk a w'). destruct (k a w'); [| | done ..]; by etrans.
Qed.

Lemma preserves_finally {A} (m : M A) (c : M unit) :
  preserves R m → preserves R c → preserves R (finally m c).
Proof.
  intros Hm Hc w. unfold finally, bind. specialize (Hm w).
  destruct (m w) as [a w' | e w' | u |]; [| | done ..];
    specialize (Hc w'); destruct (c w'); simpl; try done; by etrans.
Qed.

Lemma preserves_update (a : addr) (f : CNPLMiniState → CNPLMiniState) :
  (∀ w h, R w (set_heap h w)) → preserves R (update a f).
Proof.
  intros Hh. apply preserves_bind; [apply preserves_deref |].
  intros st. apply preserves_modify. intros w. apply Hh.
Qed.
End Preserves.

(** ** Callbacks cannot forge dispatch events *)

#[local] Instance same_dispatches_refl : Reflexive same_dispatches.
Proof. by intros w. Qed.

#[local] Instance same_dispatches_trans : Transitive same_dispatches.
Proof.
  intros w1 w2 w3 (H1 & H2 & H3) (H4 & H5 & H6). repeat split; congruence.
Qed.

#[local] Instance same_cycle_refl : Reflexive same_cycle.
Proof. by intros w. Qed.

#[local] Instance same_cycle_trans : Transitive same_cycle.
Proof. intros w1 w2 w3 [H1 H2] [H3 H4]. split; congruence. Qed.

Lemma preserves_weaken (R R' : World → World → Prop) {A} (m : M A) :
  (∀ w w', R w w' → R' w w') → preserves R m → preserves R' m.
Proof.
  intros HR Hm w. specialize (Hm w). destruct (m w); try done; by apply HR.
Qed.

Ltac preserve :=
  repeat first
    [ apply preserves_ret; [tc_solve ..]
    | apply preserves_throw; [tc_solve ..]
    | apply preserves_undefined
    | apply preserves_get; [tc_solve ..]
    | apply preserves_deref; [tc_solve ..]
    | apply preserves_bind; [tc_solve .. | | intros ?]
    | apply preserves_update; [tc_solve .. | by intros]
    | apply preserves_modify; [by intros]
    | case_decide
    | case_match ].

Lemma GetRuntimeState_same (name : string) :
  preserves same_dispatches (GetRuntimeState name).
Proof. unfold GetRuntimeState. preserve. Qed.

Lemma CreateRuntimeState_same (name : string) :
  preserves same_dispatches (CreateRuntimeState name).
Proof.
  unfold CreateRuntimeState.
  apply preserves_bind; [tc_solve | apply GetRuntimeState_same |].
  intros ?. preserve.
Qed.

Lemma DeleteRuntimeState_same (p : option addr) :
  preserves same_dispatches (DeleteRuntimeState p).
Proof. unfold DeleteRuntimeState, release. preserve. Qed.

Lemma Activate_same (from : option addr) (file code : option string) (n : Z) :
  preserves same_dispatches (Activate from file code n).
Proof.
  unfold Activate, Activate_async, activate.
  repeat first [ apply GetRuntimeState_same
               | apply preserves_bind; [tc_solve | | intros ?]
               | progress preserve ].
Qed.

Lemma run_action_same (this : addr) (act : Action) :
  preserves same_dispatches (run_action this act).
Proof.
  destruct act; unfold run_action.
  - unfold GetCurrentMsg, GetCurrentMsgLength, observe. preserve.
    intros w. repeat split; simpl; unfold processed, invoked;
      rewrite omap_app; simpl; by rewrite (right_id_L [] (++)).
  - apply preserves_bind; [tc_solve | apply Activate_same |]. intros ?. preserve.
  - apply preserves_bind; [tc_solve | apply CreateRuntimeState_same |].
    intros ?. preserve.
  - apply preserves_bind; [tc_solve | apply DeleteRuntimeState_same |].
    intros ?. preserve.
  - apply preserves_bind; [tc_solve | |].
    + unfold GetState. apply GetRuntimeState_same.
    + intros p. apply preserves_bind; [tc_solve | | intros ?; preserve].
      unfold DeleteState. destruct p; [apply DeleteRuntimeState_same | preserve].
  - preserve.
Qed.

Lemma run_actions_same (this : addr) (body : list Action) :
  preserves same_dispatches (run_actions this body).
Proof.
  induction body as [|act body IH]; simpl; [preserve |].
  apply preserves_bind; [tc_solve | apply run_action_same | by intros].
Qed.


(** ** Dispatch *)

Lemma invoked_app (t1 t2 : list Event) :
  invoked (t1 ++ t2) = invoked t1 ++ invoked t2.
Proof. apply omap_app. Qed.

Lemma processed_app (t1 t2 : list Event) :
  processed (t1 ++ t2) = processed t1 ++ processed t2.
Proof. apply omap_app. Qed.

Lemma run_actions_invoked (this : addr) (body : list Action) (w w' : World) :
  run_actions this body w = Val tt w' →
  invoked (trace w') = invoked (trace w)
  ∧ processed (trace w') = processed (trace w).
Proof.
  intros H. pose proof (run_actions_same this body w) as Hs.
  rewrite H in Hs. by destruct Hs as (? & ? & ?).
Qed.

(** The drain loop on a state whose callbacks are quiet with respect to an
    invariant that the loop itself maintains. *)
Section Drain.
Context (this : addr) (Inv : World → Prop).
Hypothesis Inv_heap : ∀ w st st',
  Inv w → heap w !! this = Some st → keeps st st' →
  Inv (set_heap (<[this := st']> (heap w)) w).
Hypothesis Inv_trace : ∀ w t, Inv w → Inv (set_trace t w).

Lemma ProcessMsg_quiet (msg : NPLMiniMessage) (st : CNPLMiniState) (w : World) :
  Inv w →
  heap w !! this = Some st →
  (m_type msg = 0 →
   ∀ cb, m_file_handlers_map st !! m_sFilename msg = Some cb →
         quiet_in Inv this cb) →
  ∃ w' st',
    ProcessMsg this msg w = Val 0 w'
    ∧ Inv w'
    ∧ heap w' !! this = Some st'
    ∧ m_input_queue st' = m_input_queue st
    ∧ m_file_handlers_map st' = m_file_handlers_map st
    ∧ m_processed_msg_count st' = m_processed_msg_count st + 1
    ∧ processed (trace w') = processed (trace w)
    ∧ invoked (trace w')
      = invoked (trace w)
        ++ option_list (dispatch_of this (m_file_handlers_map st) msg).
Proof.
  intros HI Hst Hquiet. unfold ProcessMsg, dispatch_of.
  erewrite bind_Val; [| by apply update_Some].
  set (st1 := set_count (m_processed_msg_count st + 1) st).
  set (w1 := set_heap (<[this:=st1]> (heap w)) w).
  assert (heap w1 !! this = Some st1) as Hst1 by apply lookup_insert_eq.
  assert (Inv w1) as HI1 by (by apply (Inv_heap w st st1)).
  destruct (decide (m_type msg = 0)) as [Htype | Htype].
  - rewrite bind_assoc. erewrite bind_Val; [| by apply deref_Some].
    change (m_file_handlers_map st1) with (m_file_handlers_map st).
    destruct (m_file_handlers_map st !! m_sFilename msg) as [cb |] eqn:Hcb.
    + destruct (Hquiet Htype cb eq_refl) as (body & -> & Hbody).
      set (code := m_sCode msg).
      set (st2 := set_current (Some code) (Z.of_nat (String.length code)) st1).
      set (w2 := set_heap (<[this:=st2]> (heap w1)) w1).
      set (w3 := set_trace (trace w2 ++ [EvInvoke this (m_sFilename msg) code]) w2).
      assert (heap w3 !! this = Some st2) as Hst3 by apply lookup_insert_eq.
      assert (Inv w3) as HI3.
      { apply Inv_trace. by apply (Inv_heap w1 st1 st2). }
      destruct (Hbody w3 st2 HI3 Hst3) as (w4 & Hrun & Hst4 & HI4).
      destruct (run_actions_invoked _ _ _ _ Hrun) as [Hinv Hproc].
      rewrite bind_assoc.
      erewrite bind_Val; [| by apply (update_Some _ _ st1)].
      erewrite bind_Val.
      2:{ eapply finally_Val.
          - erewrite bind_Val; [| reflexivity]. exact Hrun.
          - by apply (update_Some _ _ st2). }
      eexists _, _. split; [reflexivity |].
      split; [by apply (Inv_heap w4 st2) |].
      split; [apply lookup_insert_eq |].
      simpl. rewrite Hproc, Hinv. subst w3. simpl.
      rewrite invoked_app, processed_app. simpl.
      by rewrite (right_id_L [] (++)).
    + eexists _, _. split; [reflexivity |]. split; [exact HI1 |].
      split; [exact Hst1 |].
      simpl. by rewrite (right_id_L [] (++)).
  - eexists _, _. split; [reflexivity |]. split; [exact HI1 |].
    split; [exact Hst1 |].
    simpl. by rewrite (right_id_L [] (++)).
Qed.

Lemma Process_loop_quiet (fuel : nat) (q : list NPLMiniMessage) :
  ∀ (nCount : Z) (st : CNPLMiniState) (w : World),
    Inv w →
    heap w !! this = Some st →
    m_input_queue st = q →
    (length q < fuel)%nat →
    Forall (λ msg, m_type msg = 0 →
              ∀ cb, m_file_handlers_map st !! m_sFilename msg = Some cb →
                    quiet_in Inv this cb) q →
    ∃ w' st',
      Process_loop fuel this nCount w = Val (nCount + Z.of_nat (length q)) w'
      ∧ Inv w'
      ∧ heap w' !! this = Some st'
      ∧ m_input_queue st' = []
      ∧ m_file_handlers_map st' = m_file_handlers_map st
      ∧ m_processed_msg_count st'
        = m_processed_msg_count st + Z.of_nat (length q)
      ∧ processed (trace w') = processed (trace w)
      ∧ invoked (trace w')
        = invoked (trace w)
          ++ omap (dispatch_of this (m_file_handlers_map st)) q.
Proof.
  revert fuel.
  induction q as [|msg q IH]; intros fuel nCount st w HI Hst Hq Hfuel Hall.
  - destruct fuel as [|fuel]; [simpl in Hfuel; lia |].
    simpl. erewrite bind_Val; [| by apply deref_Some]. rewrite Hq.
    eexists w, st. simpl. rewrite Z.add_0_r, Z.add_0_r, (right_id_L [] (++)).
    done.
  - destruct fuel as [|fuel]; [simpl in Hfuel; lia |].
    apply Forall_cons in Hall as [Hmsg Hall].
    destruct (ProcessMsg_quiet msg st w HI Hst Hmsg)
      as (w1 & st1 & Hrun & HI1 & Hst1 & Hq1 & Hh1 & Hc1 & Hp1 & Hi1).
    simpl. erewrite bind_Val; [| by apply deref_Some]. rewrite Hq.
    erewrite bind_Val; [| exact Hrun].
    erewrite bind_Val; [| by apply (update_Some _ _ st1)].
    set (st2 := set_queue (tail (m_input_queue st1)) st1).
    set (w2 := set_heap (<[this:=st2]> (heap w1)) w1).
    destruct (IH fuel (nCount + 1) st2 w2)
      as (w' & st' & Hloop & HI' & Hst' & Hq' & Hh' & Hc' & Hp' & Hi').
    + apply (Inv_heap w1 st1 st2); [done | done |].
      split; [done |]. simpl. rewrite Hq1, Hq. simpl. lia.
    + apply lookup_insert_eq.
    + simpl. by rewrite Hq1, Hq.
    + simpl in Hfuel. lia.
    + simpl. by rewrite Hh1.
    + exists w', st'. rewrite Hloop. split; [f_equal; simpl length; lia |].
      split; [done |]. split; [done |]. split; [done |].
      split; [by rewrite Hh'; simpl; rewrite Hh1 |].
      split; [rewrite Hc'; simpl; rewrite Hc1; simpl length; lia |].
      split; [by rewrite Hp'; simpl; rewrite Hp1 |].
      rewrite Hi'. simpl. rewrite Hi1, Hh1.
      rewrite <- (assoc_L (++)). f_equal.
      by destruct (dispatch_of this (m_file_handlers_map st) msg).
Qed.

Lemma Process_quiet (fuel : nat) (st : CNPLMiniState) (w : World) :
  Inv w →
  heap w !! this = Some st →
  (length (m_input_queue st) < fuel)%nat →
  Forall (λ msg, m_type msg = 0 →
            ∀ cb, m_file_handlers_map st !! m_sFilename msg = Some cb →
                  quiet_in Inv this cb) (m_input_queue st) →
  ∃ w' st',
    Process fuel this w = Val (Z.of_nat (length (m_input_queue st))) w'
    ∧ Inv w'
    ∧ heap w' !! this = Some st'
    ∧ m_input_queue st' = []
    ∧ m_file_handlers_map st' = m_file_handlers_map st
    ∧ m_processed_msg_count st'
      = m_processed_msg_count st + Z.of_nat (length (m_input_queue st))
    ∧ processed (trace w') = processed (trace w) ++ [this]
    ∧ invoked (trace w')
      = invoked (trace w)
        ++ omap (dispatch_of this (m_file_handlers_map st)) (m_input_queue st).
Proof.
  intros HI Hst Hfuel Hall. unfold Process.
  erewrite bind_Val; [| reflexivity].
  set (w1 := set_trace (trace w ++ [EvProcess this]) w).
  destruct (Process_loop_quiet fuel (m_input_queue st) 0 st w1)
    as (w' & st' & Hloop & HI' & Hst' & Hq' & Hh' & Hc' & Hp' & Hi');
    try done.
  { by apply Inv_trace. }
  exists w', st'. rewrite Hloop. split; [done |].
  split; [done |]. split; [done |]. split; [done |]. split; [done |].
  split; [done |].
  rewrite Hp', Hi'. subst w1. simpl.
  rewrite processed_app, invoked_app. simpl.
  by rewrite (right_id_L [] (++)).
Qed.
End Drain.

(** C3, as amended.  Let the callbacks of the queued messages be quiet with
    respect to an invariant of the world that the updates of [Process] to its
    own state do not disturb: each of them returns normally, leaves the
    state that dispatches it as it found it and keeps the invariant (it may
    send to other states, create states and delete other states).  Then one
    call of [Process] empties the mailbox and returns the number of messages
    that were queued; the counter of processed messages has grown by that
    number, whether or not a message had a callback; and the trace shows the
    callbacks in the order of the queue, none for a message without a
    registered callback. *)
Theorem Process_drains (fuel : nat) (this : addr) (Inv : World → Prop)
    (st : CNPLMiniState) (w : World) :
  (∀ w st st', Inv w → heap w !! this = Some st → keeps st st' →
               Inv (set_heap (<[this := st']> (heap w)) w)) →
  (∀ w t, Inv w → Inv (set_trace t w)) →
  Inv w →
  heap w !! this = Some st →
  (length (m_input_queue st) < fuel)%nat →
  Forall (λ msg, m_type msg = 0 →
            ∀ cb, m_file_handlers_map st !! m_sFilename msg = Some cb →
                  quiet_in Inv this cb) (m_input_queue st) →
  ∃ w' st',
    Process fuel this w = Val (Z.of_nat (length (m_input_queue st))) w'
    ∧ Inv w'
    ∧ heap w' !! this = Some st'
    ∧ m_input_queue st' = []
    ∧ m_file_handlers_map st' = m_file_handlers_map st
    ∧ m_processed_msg_count st'
      = m_processed_msg_count st + Z.of_nat (length (m_input_queue st))
    ∧ processed (trace w') = processed (trace w) ++ [this]
    ∧ invoked (trace w')
      = invoked (trace w)
        ++ omap (dispatch_of this (m_file_handlers_map st)) (m_input_queue st).
Proof.
  intros Hheap Htrace HI Hst Hfuel Hall.
  destruct (Process_quiet this Inv Hheap Htrace fuel st w HI Hst Hfuel Hall)
    as (w' & st' & Hrun).
  by exists w', st'.
Qed.

(** A callback that reads its message is quiet with respect to every
    invariant that does not depend on the trace. *)
Lemma quiet_in_reader (Inv : World → Prop) (this : addr) :
  (∀ w t, Inv w → Inv (set_trace t w)) →
  quiet_in Inv this (Some [ReadCurrentMsg]).
Proof.
  intros Htrace. exists [ReadCurrentMsg]. split; [done |]. intros w st HI Hst.
  unfold run_actions, run_action, GetCurrentMsg, GetCurrentMsgLength.
  rewrite !bind_assoc. erewrite bind_Val; [| by apply deref_Some].
  erewrite bind_Val; [| reflexivity]. rewrite !bind_assoc.
  erewrite bind_Val; [| by apply deref_Some].
  eexists. split; [reflexivity |]. split; [done | by apply Htrace].
Qed.

Lemma forwarding_target_heap (w : World) (st st' : CNPLMiniState) :
  forwarding_target w → heap w !! main0 = Some st → keeps st st' →
  forwarding_target (set_heap (<[main0 := st']> (heap w)) w).
Proof.
  intros [Hname Halive] _ _. split; [done |].
  simpl. by rewrite lookup_insert_ne.
Qed.

(** A callback that forwards to the state ["w1"] is quiet as long as that
    state is in place. *)
Lemma quiet_in_forwarding (code : option string) :
  quiet_in forwarding_target main0
    (Some [CallActivate true "(w1)script/x.lua" code]).
Proof.
  eexists. split; [reflexivity |]. intros w st [Hname [st2 Hst2]] Hst.
  set (st2' := set_queue
                 (m_input_queue st2
                  ++ [NPLMiniMessage_new (Some "script/x.lua") code 0]) st2).
  exists (set_heap (<[2%positive := st2']> (heap w)) w).
  split; [| split].
  - unfold run_actions, run_action, Activate.
    change (Parse "(w1)script/x.lua")
      with (Defined (mkNPLFileName "w1" "" "script/x.lua" "")).
    simpl. unfold GetRuntimeState.
    rewrite !bind_assoc. erewrite bind_Val; [| reflexivity]. simpl.
    rewrite Hname. unfold Activate_async, activate.
    erewrite bind_Val; [| reflexivity]. cbv beta iota.
    rewrite !bind_assoc.
    erewrite bind_Val; [| by apply (update_Some _ _ st2)].
    reflexivity.
  - simpl. by rewrite lookup_insert_ne.
  - split; [done |]. simpl. rewrite lookup_insert_eq. by eexists.
Qed.

Lemma Process_drains_witness :
  let st := mkCNPLMiniState None 0 "main"
              [mkNPLMiniMessage "script/fwd.lua" "1" 0;
               mkNPLMiniMessage "script/none.lua" "2" 0;
               mkNPLMiniMessage "script/ping.lua" "3" 0]
              {["script/fwd.lua"
                := Some [CallActivate true "(w1)script/x.lua" (Some "p")];
                "script/ping.lua" := Some [ReadCurrentMsg]]} 0 in
  forwarding_target sample_forwarding
  ∧ heap sample_forwarding !! main0 = Some st
  ∧ (length (m_input_queue st) < 4)%nat
  ∧ ∃ w' st',
      Process 4 main0 sample_forwarding = Val 3 w'
      ∧ forwarding_target w'
      ∧ heap w' !! main0 = Some st'
      ∧ m_input_queue st' = []
      ∧ m_file_handlers_map st' = m_file_handlers_map st
      ∧ m_processed_msg_count st' = 3
      ∧ processed (trace w') = [main0]
      ∧ invoked (trace w')
        = [(main0, "script/fwd.lua", "1"); (main0, "script/ping.lua", "3")].
Proof.
  intros st.
  assert (forwarding_target sample_forwarding) as H0.
  { split; [vm_compute; reflexivity | eexists; vm_compute; reflexivity]. }
  assert (heap sample_forwarding !! main0 = Some st) as H1
    by (vm_compute; reflexivity).
  assert (length (m_input_queue st) < 4)%nat as H2 by (simpl; lia).
  assert (Forall (λ msg, m_type msg = 0 →
            ∀ cb, m_file_handlers_map st !! m_sFilename msg = Some cb →
                  quiet_in forwarding_target main0 cb) (m_input_queue st)) as H3.
  { repeat constructor; intros _ cb Hcb; vm_compute in Hcb;
      try discriminate Hcb; injection Hcb as <-;
      [apply quiet_in_forwarding | by apply quiet_in_reader]. }
  split; [exact H0 |]. split; [exact H1 |]. split; [exact H2 |].
  exact (Process_drains 4 main0 forwarding_target st sample_forwarding
           forwarding_target_heap (λ _ _ H, H) H0 H1 H2 H3).
Defined.

(** ** A callback that raises *)

Lemma invoke_same (cb : Callback) (this : addr) :
  preserves same_dispatches (invoke cb this).
Proof. destruct cb; simpl; [apply run_actions_same | preserve]. Qed.

(** C7, counterexample.  The callback of a queued message raises: whatever
    the loop bound, [Process] does not return normally; the exception leaves
    [Process], the message whose callback raised and the messages behind it
    are still queued, and their callbacks are never invoked.  In
    [sample_failing] the first of two messages fails, in [sample_mixed] the
    second of three. *)
Lemma Process_propagates_failure :
  (∀ fuel n w', Process fuel main0 sample_failing ≠ Val n w')
  ∧ (∀ fuel,
      ∃ w' st',
        Process (S fuel) main0 sample_failing
        = Thrown (client_exception "boom") w'
        ∧ heap w' !! main0 = Some st'
        ∧ m_input_queue st'
          = [mkNPLMiniMessage "script/ping.lua" "1" 0;
             mkNPLMiniMessage "script/ping.lua" "2" 0]
        ∧ invoked (trace w') = [(main0, "script/ping.lua", "1")])
  ∧ (∀ fuel n w', Process fuel main0 sample_mixed ≠ Val n w')
  ∧ (∀ fuel,
      ∃ w' st',
        Process (S (S fuel)) main0 sample_mixed
        = Thrown (client_exception "boom") w'
        ∧ heap w' !! main0 = Some st'
        ∧ m_input_queue st'
          = [mkNPLMiniMessage "script/bad.lua" "2" 0;
             mkNPLMiniMessage "script/ping.lua" "3" 0]
        ∧ invoked (trace w')
          = [(main0, "script/ping.lua", "1"); (main0, "script/bad.lua", "2")]).
Proof.
  split; [| split; [| split]].
  - intros fuel n w'. destruct fuel; vm_compute; discriminate.
  - intros fuel. eexists _, _. split; [vm_compute; reflexivity |].
    split; [vm_compute; reflexivity |]. split; reflexivity.
  - intros fuel n w'. destruct fuel as [|[|fuel]]; vm_compute; discriminate.
  - intros fuel. eexists _, _. split; [vm_compute; reflexivity |].
    split; [vm_compute; reflexivity |]. split; reflexivity.
Qed.

(** The dispatch of a message whose callback raises: the guard resets the
    current message and the exception leaves [ProcessMsg]. *)
Lemma ProcessMsg_raises (this : addr) (st st2 : CNPLMiniState) (w w2 : World)
    (msg : NPLMiniMessage) (cb : Callback) (e : Exception) :
  heap w !! this = Some st →
  m_type msg = 0 →
  m_file_handlers_map st !! m_sFilename msg = Some cb →
  invoke cb this
    (set_trace
       (trace w ++ [EvInvoke this (m_sFilename msg) (m_sCode msg)])
       (set_heap
          (<[this := set_current (Some (m_sCode msg))
                       (Z.of_nat (String.length (m_sCode msg)))
                       (set_count (m_processed_msg_count st + 1) st)]> (heap w))
          w))
  = Thrown e w2 →
  heap w2 !! this = Some st2 →
  ProcessMsg this msg w
  = Thrown e (set_heap (<[this := set_current None 0 st2]> (heap w2)) w2).
Proof.
  intros Hst Htype Hcb Hinv Hst2. unfold ProcessMsg.
  erewrite bind_Val; [| by apply (update_Some _ _ st)].
  apply bind_Thrown. rewrite decide_True by done.
  erewrite bind_Val; [| apply deref_Some, lookup_insert_eq].
  change (m_file_handlers_map (set_count _ st)) with (m_file_handlers_map st).
  rewrite Hcb.
  erewrite bind_Val; [| apply update_Some, lookup_insert_eq].
  eapply finally_Thrown.
  - erewrite bind_Val; [| reflexivity]. simpl.
    rewrite insert_insert_eq. exact Hinv.
  - by apply update_Some.
Qed.

(** Iterations of the loop on an empty mailbox do nothing. *)
Lemma Process_iterations_empty (k : nat) (this : addr) (st : CNPLMiniState)
    (w : World) :
  heap w !! this = Some st → m_input_queue st = [] →
  Process_iterations k this w = Val tt w.
Proof.
  intros Hst Hq. destruct k as [|k]; [done |]. simpl.
  erewrite bind_Val; [| by apply deref_Some]. by rewrite Hq.
Qed.

(** The loop of [Process] when the callback of its [k]-th dispatch raises. *)
Lemma Process_loop_raises (this : addr) (st1 st2 : CNPLMiniState)
    (w1 w2 : World) (msg : NPLMiniMessage) (rest : list NPLMiniMessage)
    (cb : Callback) (e : Exception) :
  heap w1 !! this = Some st1 →
  m_input_queue st1 = msg :: rest →
  m_type msg = 0 →
  m_file_handlers_map st1 !! m_sFilename msg = Some cb →
  invoke cb this
    (set_trace
       (trace w1 ++ [EvInvoke this (m_sFilename msg) (m_sCode msg)])
       (set_heap
          (<[this := set_current (Some (m_sCode msg))
                       (Z.of_nat (String.length (m_sCode msg)))
                       (set_count (m_processed_msg_count st1 + 1) st1)]> (heap w1))
          w1))
  = Thrown e w2 →
  heap w2 !! this = Some st2 →
  ∀ (k fuel : nat) (nCount : Z) (w : World),
    (k < fuel)%nat →
    Process_iterations k this w = Val tt w1 →
    Process_loop fuel this nCount w
    = Thrown e (set_heap (<[this := set_current None 0 st2]> (heap w2)) w2).
Proof.
  intros Hst1 Hq1 Htype Hcb Hinv Hst2.
  induction k as [|k IH]; intros fuel nCount w Hfuel Hiter;
    (destruct fuel as [|fuel]; [lia |]).
  - injection Hiter as ->. simpl.
    erewrite bind_Val; [| by apply deref_Some]. rewrite Hq1.
    apply bind_Thrown. by eapply ProcessMsg_raises.
  - simpl in Hiter |- *. unfold bind at 1 in Hiter. unfold bind at 1.
    unfold deref in Hiter |- *.
    destruct (heap w !! this) as [st |] eqn:Hst; [| discriminate Hiter].
    destruct (m_input_queue st) as [|front q] eqn:Hq.
    { injection Hiter as ->. rewrite Hst in Hst1. injection Hst1 as ->.
      rewrite Hq in Hq1. discriminate Hq1. }
    unfold bind at 1 in Hiter. unfold bind at 1.
    destruct (ProcessMsg this front w) as [r wa | | |]; try discriminate Hiter.
    unfold bind at 1 in Hiter. unfold bind at 1.
    destruct (update this _ wa) as [[] wb | | |]; try discriminate Hiter.
    apply IH; [lia | exact Hiter].
Qed.

(** C7, as amended.  Let the first [k] iterations of the loop of [Process]
    return normally, and let the callback of the message then at the front
    raise [e].  Then [Process] raises [e] to its caller; on that exit the
    guard has reset the current message to absent, the mailbox is as the
    callback left it (neither the message whose callback raised nor a message
    behind it is removed) and no further callback is invoked. *)
Theorem Process_handler_failure (fuel k : nat) (this : addr)
    (st1 st2 : CNPLMiniState) (w w1 w2 : World) (msg : NPLMiniMessage)
    (rest : list NPLMiniMessage) (cb : Callback) (e : Exception) :
  (k < fuel)%nat →
  (observe (EvProcess this) ;; Process_iterations k this) w = Val tt w1 →
  heap w1 !! this = Some st1 →
  m_input_queue st1 = msg :: rest →
  m_type msg = 0 →
  m_file_handlers_map st1 !! m_sFilename msg = Some cb →
  invoke cb this
    (set_trace
       (trace w1 ++ [EvInvoke this (m_sFilename msg) (m_sCode msg)])
       (set_heap
          (<[this := set_current (Some (m_sCode msg))
                       (Z.of_nat (String.length (m_sCode msg)))
                       (set_count (m_processed_msg_count st1 + 1) st1)]> (heap w1))
          w1))
  = Thrown e w2 →
  heap w2 !! this = Some st2 →
  ∃ w3 st3,
    Process fuel this w = Thrown e w3
    ∧ heap w3 !! this = Some st3
    ∧ m_current_msg st3 = None
    ∧ m_current_msg_length st3 = 0
    ∧ m_input_queue st3 = m_input_queue st2
    ∧ trace w3 = trace w2
    ∧ invoked (trace w3)
      = invoked (trace w1) ++ [(this, m_sFilename msg, m_sCode msg)]
    ∧ processed (trace w3) = processed (trace w1).
Proof.
  intros Hfuel Hiter Hst1 Hq1 Htype Hcb Hinv Hst2.
  match type of Hinv with
  | invoke _ _ ?w0 = _ => pose proof (invoke_same cb this w0) as Hsame
  end.
  rewrite Hinv in Hsame.
  destruct Hsame as (Hproc & Hsame & _). simpl in Hsame, Hproc.
  exists (set_heap (<[this := set_current None 0 st2]> (heap w2)) w2),
         (set_current None 0 st2).
  split.
  - unfold Process. erewrite bind_Val; [| reflexivity].
    erewrite bind_Val in Hiter; [| reflexivity].
    by eapply (Process_loop_raises this st1 st2 w1 w2).
  - split; [apply lookup_insert_eq |]. simpl.
    rewrite Hsame, Hproc, invoked_app, processed_app. simpl.
    by rewrite (right_id_L [] (++)).
Qed.

Lemma Process_handler_failure_witness :
  let w1 := world_after
              (observe (EvProcess main0) ;; Process_iterations 1 main0)
              sample_mixed in
  let st1 := mkCNPLMiniState None 0 "main"
               [mkNPLMiniMessage "script/bad.lua" "2" 0;
                mkNPLMiniMessage "script/ping.lua" "3" 0]
               {["script/ping.lua" := Some [ReadCurrentMsg];
                 "script/bad.lua" := Some [ThrowException "boom"]]} 1 in
  let st2 := set_current (Some "2") 1 (set_count 2 st1) in
  let w2 := set_trace (trace w1 ++ [EvInvoke main0 "script/bad.lua" "2"])
              (set_heap (<[main0 := st2]> (heap w1)) w1) in
  (1 < 2)%nat
  ∧ (observe (EvProcess main0) ;; Process_iterations 1 main0) sample_mixed
    = Val tt w1
  ∧ heap w1 !! main0 = Some st1
  ∧ invoked (trace w1) = [(main0, "script/ping.lua", "1")]
  ∧ heap w2 !! main0 = Some st2
  ∧ ∃ w3 st3,
      Process 2 main0 sample_mixed = Thrown (client_exception "boom") w3
      ∧ heap w3 !! main0 = Some st3
      ∧ m_current_msg st3 = None
      ∧ m_current_msg_length st3 = 0
      ∧ m_input_queue st3 = m_input_queue st1
      ∧ trace w3 = trace w2
      ∧ invoked (trace w3)
        = invoked (trace w1) ++ [(main0, "script/bad.lua", "2")]
      ∧ processed (trace w3) = processed (trace w1).
Proof.
  intros w1 st1 st2 w2.
  assert (1 < 2)%nat as H0 by lia.
  assert ((observe (EvProcess main0) ;; Process_iterations 1 main0) sample_mixed
          = Val tt w1) as H1 by (vm_compute; reflexivity).
  assert (heap w1 !! main0 = Some st1) as H2 by (vm_compute; reflexivity).
  assert (heap w2 !! main0 = Some st2) as H3 by (vm_compute; reflexivity).
  split; [exact H0 |]. split; [exact H1 |]. split; [exact H2 |].
  split; [vm_compute; reflexivity |]. split; [exact H3 |].
  exact (Process_handler_failure 2 1 main0 st1 st2 sample_mixed w1 w2
           (mkNPLMiniMessage "script/bad.lua" "2" 0)
           [mkNPLMiniMessage "script/ping.lua" "3" 0]
           (Some [ThrowException "boom"]) (client_exception "boom")
           H0 H1 H2 eq_refl eq_refl eq_refl eq_refl H3).
Defined.


(** ** Registration *)

Lemma RegisterFileHandler_Some (this : addr) (f : string) (cb : Callback)
    (st : CNPLMiniState) (w : World) :
  heap w !! this = Some st →
  RegisterFileHandler this (Some f) cb w
  = Val true
      (set_heap
         (<[this := set_handlers (<[f := cb]> (m_file_handlers_map st)) st]> (heap w))
         w).
Proof.
  intros Hst. unfold RegisterFileHandler.
  by erewrite bind_Val; [| by apply update_Some].
Qed.

(** C8, counterexample.  After a callback and then an absent callback are
    registered under one path, the path is still registered (with the absent
    callback), and [Process] on a message for it raises [bad_function_call]
    instead of dropping the message. *)
Lemma RegisterFileHandler_absent_keeps_entry :
  ∃ st,
    heap sample_unregistered !! main0 = Some st
    ∧ m_file_handlers_map st !! "script/ping.lua" = Some None
    ∧ m_input_queue st = [mkNPLMiniMessage "script/ping.lua" "1" 0]
    ∧ ∀ fuel,
        (∀ n w', Process fuel main0 sample_unregistered ≠ Val n w')
        ∧ ∃ w', Process (S fuel) main0 sample_unregistered
                = Thrown bad_function_call w'.
Proof.
  eexists. split; [vm_compute; reflexivity |].
  split; [vm_compute; reflexivity |]. split; [reflexivity |].
  intros fuel. split.
  - intros n w'. destruct fuel; vm_compute; discriminate.
  - eexists. vm_compute. reflexivity.
Qed.

(** C8, as amended.  Registering [cb2] under a path after [cb1] leaves
    the world that registering [cb2] alone leaves: the entry of the path is
    [cb2] and [cb1] is gone, so only [cb2] can be invoked from then on.  An
    absent [cb2] is stored like any other callback: the path stays
    registered, its entry being the absent callback. *)
Theorem RegisterFileHandler_overwrites (this : addr) (f : string)
    (cb1 cb2 : Callback) (st : CNPLMiniState) (w : World) :
  heap w !! this = Some st →
  ∃ w' st',
    (RegisterFileHandler this (Some f) cb1 ;;
     RegisterFileHandler this (Some f) cb2) w = Val true w'
    ∧ RegisterFileHandler this (Some f) cb2 w = Val true w'
    ∧ heap w' !! this = Some st'
    ∧ m_file_handlers_map st' = <[f := cb2]> (m_file_handlers_map st)
    ∧ m_file_handlers_map st' !! f = Some cb2.
Proof.
  intros Hst.
  set (st' := set_handlers (<[f := cb2]> (m_file_handlers_map st)) st).
  set (w' := set_heap (<[this := st']> (heap w)) w).
  exists w', st'. split.
  { erewrite bind_Val; [| by apply RegisterFileHandler_Some].
    erewrite RegisterFileHandler_Some; [| apply lookup_insert_eq].
    simpl. by rewrite !insert_insert_eq. }
  split; [by apply RegisterFileHandler_Some |].
  split; [apply lookup_insert_eq |]. split; [done | apply lookup_insert_eq].
Qed.

(** X11.  The dispatch of a message whose path is registered with the
    absent callback: the message is counted, the absent callback is called,
    which raises, and the guard resets the current message. *)
Lemma ProcessMsg_absent_callback (this : addr) (msg : NPLMiniMessage)
    (st : CNPLMiniState) (w : World) :
  heap w !! this = Some st →
  m_type msg = 0 →
  m_file_handlers_map st !! m_sFilename msg = Some None →
  ∃ w' st',
    ProcessMsg this msg w = Thrown bad_function_call w'
    ∧ heap w' !! this = Some st'
    ∧ m_current_msg st' = None
    ∧ m_processed_msg_count st' = m_processed_msg_count st + 1.
Proof.
  intros Hst Htype Hcb. eexists _, _. split.
  - unfold ProcessMsg.
    erewrite bind_Val; [| by apply (update_Some _ _ st)].
    apply bind_Thrown. rewrite decide_True by done.
    erewrite bind_Val; [| apply deref_Some, lookup_insert_eq].
    change (m_file_handlers_map (set_count _ st)) with (m_file_handlers_map st).
    rewrite Hcb.
    erewrite bind_Val; [| apply update_Some, lookup_insert_eq].
    eapply finally_Thrown.
    + erewrite bind_Val; reflexivity.
    + apply update_Some, lookup_insert_eq.
  - split; [apply lookup_insert_eq |]. done.
Qed.

Lemma ProcessMsg_absent_callback_witness :
  let st := mkCNPLMiniState None 0 "main"
              [mkNPLMiniMessage "script/ping.lua" "1" 0]
              {["script/ping.lua" := None]} 0 in
  heap sample_unregistered !! main0 = Some st
  ∧ ∃ w' st',
      ProcessMsg main0 (mkNPLMiniMessage "script/ping.lua" "1" 0)
        sample_unregistered
      = Thrown bad_function_call w'
      ∧ heap w' !! main0 = Some st'
      ∧ m_current_msg st' = None
      ∧ m_processed_msg_count st' = 1.
Proof.
  intros st.
  assert (heap sample_unregistered !! main0 = Some st) as H1
    by (vm_compute; reflexivity).
  split; [exact H1 |].
  exact (ProcessMsg_absent_callback main0
           (mkNPLMiniMessage "script/ping.lua" "1" 0) st sample_unregistered
           H1 eq_refl eq_refl).
Defined.

Lemma RegisterFileHandler_overwrites_witness :
  let st := mkCNPLMiniState None 0 "main" [] ∅ 0 in
  heap runtime0 !! main0 = Some st
  ∧ ∃ w' st',
      (RegisterFileHandler main0 (Some "f") (Some [ReadCurrentMsg]) ;;
       RegisterFileHandler main0 (Some "f") None) runtime0
      = Val true w'
      ∧ RegisterFileHandler main0 (Some "f") None runtime0 = Val true w'
      ∧ heap w' !! main0 = Some st'
      ∧ m_file_handlers_map st' = <["f" := None]> (m_file_handlers_map st)
      ∧ m_file_handlers_map st' !! "f" = Some None.
Proof.
  intros st.
  assert (heap runtime0 !! main0 = Some st) as H1 by (vm_compute; reflexivity).
  split; [exact H1 |].
  exact (RegisterFileHandler_overwrites main0 "f" (Some [ReadCurrentMsg]) None
           st runtime0 H1).
Defined.


(** ** The pool during a cycle *)

Section Cycle.
Context (snap : list addr) (bound : nat).
Hypothesis bound_pos : (0 < bound)%nat.

Lemma pool_inv_alive (w : World) (b : addr) :
  pool_inv snap bound w → b ∈ snap → is_Some (heap w !! b).
Proof.
  intros (Htemp & Href & _) Hb. apply elem_of_dom, Href.
  unfold referenced. rewrite Htemp. set_solver.
Qed.

Lemma pool_inv_heap (this : addr) (w : World) (st st' : CNPLMiniState) :
  pool_inv snap bound w → heap w !! this = Some st → keeps st st' →
  pool_inv snap bound (set_heap (<[this := st']> (heap w)) w).
Proof.
  intros (Htemp & Href & Hgood) Hst [Hh Hq].
  split; [done |]. split.
  - simpl. rewrite dom_insert_L.
    change (referenced (set_heap _ w)) with (referenced w). set_solver.
  - simpl. apply map_Forall_insert_2; [| done].
    destruct (Hgood this st Hst) as [Ht Hl]. split; [by rewrite Hh | lia].
Qed.

Lemma pool_inv_trace (w : World) (t : list Event) :
  pool_inv snap bound w → pool_inv snap bound (set_trace t w).
Proof. done. Qed.

Lemma GetRuntimeState_referenced (name : string) (w : World) :
  ∃ p, GetRuntimeState name w = Val p w
       ∧ ∀ a, p = Some a → a ∈ referenced w.
Proof.
  unfold GetRuntimeState, bind, get, referenced.
  destruct (decide (name = "")) as [-> | Hname]; simpl.
  - eexists. split; [done |]. intros a ->. set_solver.
  - destruct (m_active_state_map w !! name) as [a |] eqn:Ha; simpl.
    + eexists. split; [done |]. intros ? [= <-].
      apply elem_of_union_r, elem_of_map_img. by exists name.
    + eexists. split; [done |]. done.
Qed.

Lemma CreateRuntimeState_inv (name : string) (w : World) :
  pool_inv snap bound w →
  ∃ r w', CreateRuntimeState name w = Val r w'
          ∧ pool_inv snap bound w' ∧ frame snap w w'.
Proof.
  intros HI. pose proof HI as (Htemp & Href & Hgood).
  unfold CreateRuntimeState.
  destruct (GetRuntimeState_referenced name w) as (p & Hget & _).
  erewrite bind_Val; [| exact Hget].
  destruct p as [a |]; [by eexists _, w |].
  set (a := fresh (dom (heap w))).
  assert (a ∉ dom (heap w)) as Hfresh by apply is_fresh.
  assert (good bound (CNPLMiniState_new (Some name))) as Hnew.
  { split; [apply map_Forall_empty | simpl; lia]. }
  unfold bind, get, modify, ret. simpl.
  destruct (decide (name = "")) as [-> | Hname]; simpl.
  - eexists _, _. split; [reflexivity |]. split.
    + split; [done |]. split.
      * unfold referenced in *. simpl. rewrite dom_insert_L. set_solver.
      * simpl. by apply map_Forall_insert_2.
    + intros b Hb. simpl. apply lookup_insert_ne. intros <-.
      apply Hfresh, elem_of_dom. by apply pool_inv_alive.
  - eexists _, _. split; [reflexivity |]. split.
    + split; [done |]. split.
      * unfold referenced in *. simpl. rewrite dom_insert_L.
        pose proof (map_img_insert_subseteq (SA := gset addr)
                      (m_active_state_map w) name a).
        set_solver.
      * simpl. by apply map_Forall_insert_2.
    + intros b Hb. simpl. apply lookup_insert_ne. intros <-.
      apply Hfresh, elem_of_dom. by apply pool_inv_alive.
Qed.

(** Letting go of a pointer destroys no state that the runtime still
    points to. *)
Lemma release_inv (w w1 : World) :
  pool_inv snap bound w →
  m_temp_rts_pool w1 = snap →
  heap w1 = heap w →
  referenced w1 ⊆ referenced w →
  ∃ w', release w1 = Val tt w' ∧ pool_inv snap bound w' ∧ frame snap w w'
        ∧ trace w' = trace w1.
Proof.
  intros (Htemp & Href & Hgood) Htemp1 Hheap Hsub.
  eexists. split; [reflexivity |]. rewrite Hheap. split; [split |].
  - done.
  - split.
    + change (referenced (set_heap _ w1)) with (referenced w1). simpl.
      intros x Hx. apply elem_of_dom.
      assert (x ∈ dom (heap w)) as [st Hst]%elem_of_dom by set_solver.
      exists st. by apply map_lookup_filter_Some_2.
    + simpl. intros x st [Hst _]%map_lookup_filter_Some.
      by apply (Hgood x).
  - split; [| done]. intros b Hb. simpl.
    assert (b ∈ referenced w1) as Hb1.
    { unfold referenced. rewrite Htemp1. set_solver. }
    destruct (heap w !! b) as [st |] eqn:Hst.
    + by apply map_lookup_filter_Some_2.
    + apply map_lookup_filter_None. by left.
Qed.

Lemma DeleteRuntimeState_inv (a : addr) (w : World) :
  pool_inv snap bound w → is_Some (heap w !! a) →
  ∃ r w', DeleteRuntimeState (Some a) w = Val r w'
          ∧ pool_inv snap bound w' ∧ frame snap w w'
          ∧ trace w' = trace w.
Proof.
  intros HI [st Hst]. pose proof HI as (Htemp & Href & Hgood).
  unfold DeleteRuntimeState.
  erewrite bind_Val; [| by apply deref_Some].
  erewrite bind_Val; [| reflexivity].
  destruct (decide (a ∈ m_runtime_states w)) as [Hin | Hin].
  - rewrite bind_assoc. erewrite bind_Val; [| reflexivity].
    erewrite bind_Val; [| reflexivity].
    set (w1 := set_states (m_runtime_states w ∖ {[a]}) w).
    destruct (release_inv w w1 HI) as (w' & Hrel & HI' & Hfr & Htr);
      [done | done | unfold referenced; simpl; set_solver |].
    erewrite bind_Val; [| exact Hrel]. by eexists _, w'.
  - rewrite bind_assoc.
    destruct (decide (m_name st = "")) as [Hname | Hname].
    + erewrite bind_Val; [| reflexivity]. erewrite bind_Val; [| reflexivity].
      destruct (release_inv w w HI) as (w' & Hrel & HI' & Hfr & Htr);
        [done | done | done |].
      erewrite bind_Val; [| exact Hrel]. by eexists _, w'.
    + erewrite bind_Val; [| reflexivity]. erewrite bind_Val; [| reflexivity].
      set (w1 := set_names (delete (m_name st) (m_active_state_map w)) w).
      destruct (release_inv w w1 HI) as (w' & Hrel & HI' & Hfr & Htr);
        [done | done | |].
      { unfold referenced. simpl.
        pose proof (map_img_delete_subseteq (SA := gset addr)
                      (m_name st) (m_active_state_map w)).
        set_solver. }
      erewrite bind_Val; [| exact Hrel]. by eexists _, w'.
Qed.

Lemma frame_refl (w : World) : frame snap w w.
Proof. by intros b Hb. Qed.

Lemma frame_trans (w1 w2 w3 : World) :
  frame snap w1 w2 → frame snap w2 w3 → frame snap w1 w3.
Proof. intros H1 H2 b Hb. by rewrite H2, H1. Qed.

(** One tame call made on behalf of a state of the snapshot. *)
Lemma run_action_tame (this : addr) (act : Action) (w : World) :
  this ∈ snap → tame act = true → pool_inv snap bound w →
  ∃ w', run_action this act w = Val tt w'
        ∧ pool_inv snap bound w' ∧ frame snap w w'.
Proof.
  intros Hthis Htame HI.
  destruct (pool_inv_alive w this HI Hthis) as [st Hst].
  destruct act as [| | name | | name |]; try discriminate Htame;
    unfold run_action.
  - unfold GetCurrentMsg, GetCurrentMsgLength.
    rewrite !bind_assoc. erewrite bind_Val; [| by apply deref_Some].
    erewrite bind_Val; [| reflexivity]. rewrite !bind_assoc.
    erewrite bind_Val; [| by apply deref_Some].
    erewrite bind_Val; [| reflexivity].
    eexists. split; [reflexivity |]. split; [by apply pool_inv_trace | done].
  - destruct (CreateRuntimeState_inv name w HI) as (r & w' & Hrun & HI' & Hfr).
    unfold CreateState. erewrite bind_Val; [| exact Hrun]. by exists w'.
  - destruct (DeleteRuntimeState_inv this w HI) as (r & w' & Hrun & HI' & Hfr & _);
      [done |].
    unfold DeleteState. erewrite bind_Val; [| exact Hrun]. by exists w'.
  - destruct (GetRuntimeState_referenced name w) as (p & Hget & Hp).
    unfold GetState. erewrite bind_Val; [| exact Hget].
    destruct p as [a |].
    + destruct (DeleteRuntimeState_inv a w HI) as (r & w' & Hrun & HI' & Hfr & _).
      { apply elem_of_dom. destruct HI as (_ & Href & _). by apply Href, Hp. }
      unfold DeleteState. erewrite bind_Val; [| exact Hrun]. by exists w'.
    + exists w. split; [reflexivity |]. split; [done | apply frame_refl].
Qed.

Lemma run_actions_tame (this : addr) (body : list Action) :
  this ∈ snap → forallb tame body = true →
  ∀ w, pool_inv snap bound w →
    ∃ w', run_actions this body w = Val tt w'
          ∧ pool_inv snap bound w' ∧ frame snap w w'.
Proof.
  intros Hthis. induction body as [|act body IH]; intros Htame w HI.
  - exists w. split; [reflexivity |]. split; [done | apply frame_refl].
  - simpl in Htame. apply andb_prop in Htame as [Hact Hbody].
    destruct (run_action_tame this act w Hthis Hact HI)
      as (w1 & Hrun1 & HI1 & Hfr1).
    destruct (IH Hbody w1 HI1) as (w2 & Hrun2 & HI2 & Hfr2).
    exists w2. simpl. erewrite bind_Val; [| exact Hrun1].
    split; [exact Hrun2 |]. split; [done | by eapply frame_trans].
Qed.

Lemma tame_quiet (this : addr) (cb : Callback) :
  this ∈ snap → tame_callback cb = true →
  quiet_in (pool_inv snap bound) this cb.
Proof.
  intros Hthis Htame. destruct cb as [body |]; [| discriminate Htame].
  exists body. split; [done |]. intros w st HI Hst.
  destruct (run_actions_tame this body Hthis Htame w HI)
    as (w' & Hrun & HI' & Hfr).
  exists w'. split; [done |]. split; [| done]. by rewrite (Hfr this Hthis).
Qed.

(** [Process] on a state of the snapshot. *)
Lemma Process_tame (this : addr) (w : World) :
  this ∈ snap → pool_inv snap bound w →
  ∃ n w', Process bound this w = Val n w'
          ∧ pool_inv snap bound w'
          ∧ processed (trace w') = processed (trace w) ++ [this].
Proof.
  intros Hthis HI.
  destruct (pool_inv_alive w this HI Hthis) as [st Hst].
  pose proof HI as (_ & _ & Hgood).
  destruct (Hgood this st Hst) as [Htame Hlen].
  destruct (Process_quiet this (pool_inv snap bound)
              (pool_inv_heap this) pool_inv_trace bound st w HI Hst Hlen)
    as (w' & st' & Hrun & HI' & _ & _ & _ & _ & Hp & _).
  { apply Forall_forall. intros msg _ _ cb Hcb.
    apply tame_quiet; [done |]. by apply (Htame (m_sFilename msg)). }
  by eexists _, w'.
Qed.

(** The second loop of [Run], from index [i] of the snapshot on. *)
Lemma Run_loop_tame (n : nat) :
  ∀ (i : nat) (w : World),
    (i + n ≤ length snap)%nat → pool_inv snap bound w →
    ∃ w', Run_loop bound n i w = Val tt w'
          ∧ pool_inv snap bound w'
          ∧ processed (trace w')
            = processed (trace w) ++ take n (drop i snap).
Proof.
  induction n as [|n IH]; intros i w Hi HI.
  - exists w. split; [reflexivity |]. split; [done |].
    by rewrite take_0, (right_id_L [] (++)).
  - destruct (lookup_lt_is_Some_2 snap i) as [a Ha]; [lia |].
    assert (a ∈ snap) as Hin by (apply list_elem_of_lookup; by exists i).
    destruct (Process_tame a w Hin HI) as (r & w1 & Hrun1 & HI1 & Hp1).
    destruct (IH (S i) w1) as (w2 & Hrun2 & HI2 & Hp2); [lia | done |].
    exists w2. simpl. erewrite bind_Val; [| reflexivity].
    destruct HI as (-> & _ & _). rewrite Ha.
    erewrite bind_Val; [| exact Hrun1].
    split; [exact Hrun2 |]. split; [done |].
    rewrite Hp2, Hp1, <- (assoc_L (++)). f_equal.
    rewrite (drop_S snap a i Ha). done.
Qed.
End Cycle.

Lemma in_pointer_order_elements (s : gset addr) :
  in_pointer_order s ≡ₚ elements s.
Proof. apply merge_sort_Permutation. Qed.

Lemma elem_of_in_pointer_order (s : gset addr) (a : addr) :
  a ∈ in_pointer_order s ↔ a ∈ s.
Proof. by rewrite in_pointer_order_elements, elem_of_elements. Qed.




(** ** The cycle with arbitrary callbacks *)

Lemma same_dispatches_cycle (w w' : World) :
  same_dispatches w w' → same_cycle w w'.
Proof. by intros (? & ? & ?). Qed.

Lemma ProcessMsg_cycle (this : addr) (msg : NPLMiniMessage) :
  preserves same_cycle (ProcessMsg this msg).
Proof.
  unfold ProcessMsg, SetCurrentMessage.
  apply preserves_bind; [tc_solve | preserve |]. intros _.
  apply preserves_bind; [tc_solve | | intros ?; preserve].
  case_decide; [| preserve].
  apply preserves_bind; [tc_solve | preserve |]. intros st.
  destruct (m_file_handlers_map st !! m_sFilename msg) as [cb |]; [| preserve].
  apply preserves_bind; [tc_solve | preserve |]. intros _.
  apply preserves_finally; [tc_solve | | preserve].
  apply preserves_bind; [tc_solve | |].
  - apply preserves_modify. intros w. split; [| done]. simpl.
    rewrite processed_app. simpl. by rewrite (right_id_L [] (++)).
  - intros _. eapply preserves_weaken; [| apply invoke_same].
    apply same_dispatches_cycle.
Qed.

Lemma Process_loop_cycle (fuel : nat) (this : addr) :
  ∀ nCount, preserves same_cycle (Process_loop fuel this nCount).
Proof.
  induction fuel as [|fuel IH]; intros nCount; [by intros w |].
  simpl. apply preserves_bind; [tc_solve | preserve |]. intros st.
  destruct (m_input_queue st) as [|front q]; [preserve |].
  apply preserves_bind; [tc_solve | apply ProcessMsg_cycle |]. intros _.
  apply preserves_bind; [tc_solve | preserve | by intros _].
Qed.

(** However [Process] leaves, it was entered once and the snapshot vector is
    as it was. *)
Lemma Process_cycle (fuel : nat) (this : addr) (w : World) :
  match Process fuel this w with
  | Val _ w' | Thrown _ w' =>
      processed (trace w') = processed (trace w) ++ [this]
      ∧ m_temp_rts_pool w' = m_temp_rts_pool w
  | _ => True
  end.
Proof.
  unfold Process. erewrite bind_Val; [| reflexivity].
  pose proof (Process_loop_cycle fuel this 0
                (set_trace (trace w ++ [EvProcess this]) w)) as H.
  destruct (Process_loop fuel this 0 _) as [n w' | e w' | |]; try done;
    destruct H as [Hp Ht]; rewrite Hp, Ht; simpl;
    by rewrite processed_app.
Qed.

Lemma Run_loop_cycle (fuel : nat) (n : nat) :
  ∀ (i : nat) (w : World),
    match Run_loop fuel n i w with
    | Val _ w' =>
        processed (trace w')
        = processed (trace w) ++ take n (drop i (m_temp_rts_pool w))
        ∧ m_temp_rts_pool w' = m_temp_rts_pool w
    | Thrown _ w' =>
        ∃ k, (k < n)%nat
             ∧ processed (trace w')
               = processed (trace w) ++ take (S k) (drop i (m_temp_rts_pool w))
             ∧ m_temp_rts_pool w' = m_temp_rts_pool w
    | _ => True
    end.
Proof.
  induction n as [|n IH]; intros i w.
  - simpl. by rewrite take_0, (right_id_L [] (++)).
  - simpl. erewrite bind_Val; [| reflexivity].
    destruct (m_temp_rts_pool w !! i) as [a |] eqn:Ha; [| done].
    pose proof (Process_cycle fuel a w) as HP. unfold bind at 1.
    destruct (Process fuel a w) as [r w1 | e w1 | |]; try done;
      destruct HP as [Hp1 Ht1].
    + specialize (IH (S i) w1). rewrite Ht1, Hp1 in IH.
      rewrite (drop_S _ a i Ha).
      destruct (Run_loop fuel n (S i) w1) as [[] w2 | e w2 | |]; try done.
      * destruct IH as [Hp2 Ht2]. split; [| done].
        by rewrite Hp2, <- (assoc_L (++)).
      * destruct IH as (k & Hk & Hp2 & Ht2). exists (S k).
        split; [lia |]. split; [| done].
        by rewrite Hp2, <- (assoc_L (++)).
    + exists 0%nat. split; [lia |]. split; [| done].
      by rewrite Hp1, (drop_S _ a i Ha).
Qed.

(** X23.  Whatever the callbacks do: when [Run], started between cycles,
    returns, it has entered [Process] on the states of the snapshot, each
    once and in order; when a callback raises, it has done so for a part of
    the snapshot and the snapshot is left behind in [m_temp_rts_pool]. *)
Lemma Run_cycle (fuel : nat) (bToEnd : bool) (w : World) :
  m_temp_rts_pool w = [] →
  match Run fuel bToEnd w with
  | Val _ w' =>
      processed (trace w')
      = processed (trace w) ++ in_pointer_order (m_runtime_states w)
      ∧ m_temp_rts_pool w' = []
  | Thrown _ w' =>
      ∃ k, (k < length (in_pointer_order (m_runtime_states w)))%nat
           ∧ processed (trace w')
             = processed (trace w)
               ++ take (S k) (in_pointer_order (m_runtime_states w))
           ∧ m_temp_rts_pool w' = in_pointer_order (m_runtime_states w)
  | _ => True
  end.
Proof.
  intros Htemp. unfold Run.
  erewrite bind_Val; [| reflexivity]. erewrite bind_Val; [| reflexivity].
  rewrite Htemp. simpl.
  set (snap := in_pointer_order (m_runtime_states w)).
  set (w1 := set_temp snap w).
  pose proof (Run_loop_cycle fuel (length snap) 0 w1) as H. unfold bind at 1.
  destruct (Run_loop fuel (length snap) 0 w1) as [[] w2 | e w2 | |];
    [| exact H | done ..].
  destruct H as [Hp Ht]. simpl in Hp. rewrite drop_0, firstn_all in Hp.
  simpl. done.
Qed.

Lemma Run_cycle_witness :
  m_temp_rts_pool sample_failing = []
  ∧ match Run 5 true sample_failing with
    | Val _ w' =>
        processed (trace w')
        = processed (trace sample_failing)
          ++ in_pointer_order (m_runtime_states sample_failing)
        ∧ m_temp_rts_pool w' = []
    | Thrown _ w' =>
        ∃ k, (k < length (in_pointer_order (m_runtime_states sample_failing)))%nat
             ∧ processed (trace w')
               = processed (trace sample_failing)
                 ++ take (S k)
                      (in_pointer_order (m_runtime_states sample_failing))
             ∧ m_temp_rts_pool w'
               = in_pointer_order (m_runtime_states sample_failing)
    | _ => True
    end.
Proof.
  assert (m_temp_rts_pool sample_failing = []) as H1 by reflexivity.
  split; [exact H1 |]. exact (Run_cycle 5 true sample_failing H1).
Defined.


#[local] Instance good_dec (bound : nat) (st : CNPLMiniState) :
  Decision (good bound st).
Proof. unfold good. apply _. Defined.

#[local] Instance pool_inv_dec (snap : list addr) (bound : nat) (w : World) :
  Decision (pool_inv snap bound w).
Proof. unfold pool_inv. apply _. Defined.


(** What the cycle of the sample does: the state that deletes itself is
    processed once, the state it creates is not processed, and the deleted
    state is out of the pool afterwards. *)
Lemma Run_sample_pool :
  ∃ w',
    Run 5 true sample_pool = Val tt w'
    ∧ trace w'
      = [EvProcess 1; EvProcess 2; EvInvoke 2 "script/x.lua" "hi";
         EvRead 2 (Some "hi") 2; EvProcess 3]
    ∧ in_pointer_order (m_runtime_states w')
      = [1%positive; 3%positive; 4%positive]
    ∧ m_active_state_map w' !! "w3" = Some 4%positive.
Proof.
  eexists. split; [vm_compute; reflexivity |].
  split; [reflexivity |]. split; [vm_compute; reflexivity |].
  vm_compute. reflexivity.
Qed.


(** ** The branch of [FromString] with a [':'] *)

Ltac reassoc := repeat first [rewrite <- (assoc_L (++)) | progress simpl].

Lemma plain_intro (stop : ascii) (l : list ascii) :
  stop ∉ l → Forall (λ c, c ≠ NUL) l → plain stop l.
Proof.
  unfold plain. rewrite !Forall_forall. intros Hstop Hnul c Hc.
  split; [by intros -> | by apply Hnul].
Qed.

Lemma until_nul_stops (l rest : list ascii) :
  Forall (λ c, c ≠ NUL) l → until_nul (l ++ NUL :: rest) = Defined l.
Proof.
  induction 1 as [|c l Hc _ IH]; simpl.
  - done.
  - rewrite decide_False by done. by rewrite IH.
Qed.

Lemma assign_cstr_rest (p a l rest : list ascii) (start : Z) :
  p = a ++ l ++ NUL :: rest → start = Z.of_nat (length a) →
  Forall (λ c, c ≠ NUL) l →
  assign_cstr p start = Defined (string_of_list_ascii l).
Proof.
  intros -> -> Hl. unfold assign_cstr. case_decide; [lia |].
  rewrite Nat2Z.id, drop_app_length. by rewrite until_nul_stops.
Qed.

Lemma resolver_suffix_no_nul (dns : option (list ascii)) :
  Forall (λ c, c ≠ NUL) (default [] dns) →
  Forall (λ c, c ≠ NUL) (resolver_suffix dns).
Proof. destruct dns; simpl; [by constructor | done]. Qed.

(** After the optional state prefix [a]: a network id, the [':'], a path
    and the optional resolver suffix.  An empty path makes [SetRelativePath]
    copy the rest of the text. *)
Lemma FromString_namespace_colon (p a nid path : list ascii)
    (dns : option (list ascii)) (state : string) :
  p = a ++ nid ++ ":"%char :: path ++ resolver_suffix dns ++ [NUL] →
  plain ":"%char nid → plain "@"%char path →
  Forall (λ c, c ≠ NUL) (default [] dns) →
  FromString_namespace p state (Z.of_nat (length a))
  = Defined (mkNPLFileName state (string_of_list_ascii nid)
               (slashes (string_of_list_ascii
                           (if decide (path = []) then resolver_suffix dns
                            else path)))
               (string_of_list_ascii (default [] dns))).
Proof.
  intros Hp Hnid Hpath Hdns. unfold FromString_namespace.
  set (i1 := Z.of_nat (length a) + Z.of_nat (length nid)).
  erewrite (scan_stops _ _ a nid _ ":"%char); [| exact Hp | done | done | by left].
  fold i1. simpl.
  erewrite (peek_at _ (a ++ nid)); [| by rewrite Hp, <- (assoc_L (++)) |
                                     rewrite length_app; lia].
  simpl.
  assert ((if decide (i1 > Z.of_nat (length a))
           then assign p (Z.of_nat (length a)) (i1 - Z.of_nat (length a))
           else Defined "") = Defined (string_of_list_ascii nid)) as ->.
  { case_decide as Hgt.
    - eapply assign_middle; [exact Hp | done | lia].
    - destruct nid; [done | simpl in *; lia]. }
  simpl.
  set (a1 := a ++ nid ++ [":"%char]).
  assert (i1 + 1 = Z.of_nat (length a1)) as Hi1.
  { subst a1 i1. rewrite !length_app. simpl. lia. }
  assert (p = a1 ++ path ++ resolver_suffix dns ++ [NUL]) as Hp1.
  { subst a1. rewrite Hp, <- !(assoc_L (++)). done. }
  set (i2 := i1 + 1 + Z.of_nat (length path)).
  assert (∃ x post, resolver_suffix dns ++ [NUL] = x :: post
                    ∧ (x = "@"%char ∨ x = NUL)) as (x & post & Hsuf & Hx).
  { destruct dns; simpl; eexists _, _; (split; [done |]); auto. }
  erewrite (scan_stops _ _ a1 path post x);
    [| by rewrite Hp1, Hsuf | done | done | done].
  fold i2. simpl.
  assert (SetRelativePath p (i1 + 1) (i2 - (i1 + 1))
          = Defined (slashes (string_of_list_ascii
                                (if decide (path = []) then resolver_suffix dns
                                 else path)))) as ->.
  { unfold SetRelativePath. case_decide as Hn.
    - destruct path; [| subst i2; simpl in *; lia].
      rewrite decide_True by done.
      erewrite (assign_cstr_rest _ a1 (resolver_suffix dns) []);
        [done | exact Hp1 | done | by apply resolver_suffix_no_nul].
    - rewrite decide_False by (intros ->; subst i2; simpl in *; lia).
      erewrite (assign_middle _ a1 path); [done | exact Hp1 | done | lia]. }
  simpl.
  erewrite (peek_at _ (a1 ++ path) post x);
    [| by rewrite Hp1, Hsuf, <- (assoc_L (++)) | rewrite length_app; lia].
  simpl. destruct dns as [d |]; simpl in *.
  - injection Hsuf as <- <-. simpl.
    set (a2 := a1 ++ path ++ ["@"%char]).
    assert (i2 + 1 = Z.of_nat (length a2)) as Hi2.
    { subst a2 i2. rewrite !length_app. simpl. lia. }
    assert (p = a2 ++ d ++ [NUL]) as Hp2.
    { subst a2. rewrite Hp1, <- !(assoc_L (++)). done. }
    erewrite (scan_stops _ _ a2 d [] NUL);
      [| exact Hp2 | done | | by right].
    2:{ eapply Forall_impl; [exact Hdns |]. by intros c Hc. }
    simpl.
    erewrite (assign_middle _ a2 d [NUL]); [done | exact Hp2 | done | lia].
  - by injection Hsuf as <- <-.
Qed.

(** The address of a text with a [':'], exactly. *)
Lemma Parse_colon_exact (text : string) (name nid path : list ascii)
    (dns : option (list ascii)) :
  Forall (λ c, c ≠ NUL) (list_ascii_of_string text) →
  state_prefix (list_ascii_of_string text)
  = Some (name, nid ++ ":"%char :: path ++ resolver_suffix dns) →
  ":"%char ∉ nid → "@"%char ∉ path →
  Parse text
  = Defined (mkNPLFileName
               (if decide (name = ["g"; "l"]%char) then ""
                else string_of_list_ascii name)
               (string_of_list_ascii nid)
               (slashes (string_of_list_ascii
                           (if decide (path = []) then resolver_suffix dns
                            else path)))
               (string_of_list_ascii (default [] dns))).
Proof.
  intros Hnul Hprefix Hnid Hpath. unfold Parse.
  rewrite <- (string_of_list_ascii_of_string text).
  destruct (list_ascii_of_string text) as [|c l] eqn:Hl.
  { simpl in Hprefix. injection Hprefix as _ Hrest. by destruct nid. }
  simpl in Hprefix. case_decide as Hc.
  - subst c. apply split_at_app in Hprefix as [-> Hname].
    apply Forall_cons in Hnul as [_ Hnul].
    apply Forall_app in Hnul as [Hn1 Hn2].
    apply Forall_cons in Hn2 as [_ Hn2].
    apply Forall_app in Hn2 as [Hn2 Hn3].
    apply Forall_cons in Hn3 as [_ Hn3].
    apply Forall_app in Hn3 as [Hn3 Hn4].
    unfold FromString, c_str. rewrite list_ascii_of_string_of_list_ascii.
    match goal with
    | |- context [peek ?p 0] =>
        assert (peek p 0 = Defined "("%char) as -> by reflexivity
    end.
    simpl.
    erewrite (activation_type_closed _ name
                ((nid ++ ":"%char :: path ++ resolver_suffix dns) ++ [NUL]));
      [| by rewrite <- (assoc_L (++)) | by apply Forall_and].
    simpl.
    replace (Z.of_nat (length name) + 2)
      with (Z.of_nat (length ("("%char :: name ++ [")"%char])))
      by (simpl; rewrite length_app; simpl; lia).
    apply FromString_namespace_colon.
    + by reassoc.
    + by apply plain_intro.
    + by apply plain_intro.
    + destruct dns; simpl in *; [by apply Forall_cons in Hn4 as [_ ?] | done].
  - injection Hprefix as <- Hrest.
    assert (c ≠ NUL) as Hc0 by (by apply Forall_cons in Hnul as [? _]).
    rewrite Hrest in Hnul.
    apply Forall_app in Hnul as [Hn2 Hn3].
    apply Forall_cons in Hn3 as [_ Hn3].
    apply Forall_app in Hn3 as [Hn3 Hn4].
    unfold FromString, c_str. rewrite list_ascii_of_string_of_list_ascii.
    assert (peek ((c :: l) ++ [NUL]) 0 = Defined c) as -> by reflexivity.
    simpl. rewrite !decide_False by done. simpl.
    apply (FromString_namespace_colon _ []).
    + change (c :: l ++ [NUL]) with ((c :: l) ++ [NUL]). rewrite Hrest.
      by reassoc.
    + by apply plain_intro.
    + by apply plain_intro.
    + destruct dns; simpl in *; [by apply Forall_cons in Hn4 as [_ ?] | done].
Qed.

(** X1.  A text of the documented format with a [':'] and a non-empty path,
    [[(name)]nid:path[@dns]], parses into its parts: the state name (with
    ["gl"] read as the empty name), the network id before the [':'], the path
    up to the first ['@'] with every backslash turned into a slash, and the
    resolver name after the ['@']. *)
Theorem Parse_with_colon (text : string) (name nid path : list ascii)
    (dns : option (list ascii)) :
  Forall (λ c, c ≠ NUL) (list_ascii_of_string text) →
  state_prefix (list_ascii_of_string text)
  = Some (name, nid ++ ":"%char :: path ++ resolver_suffix dns) →
  ":"%char ∉ nid → "@"%char ∉ path → path ≠ [] →
  Parse text
  = Defined (mkNPLFileName
               (if decide (name = ["g"; "l"]%char) then ""
                else string_of_list_ascii name)
               (string_of_list_ascii nid)
               (slashes (string_of_list_ascii path))
               (string_of_list_ascii (default [] dns))).
Proof.
  intros Hnul Hprefix Hnid Hpath Hne.
  rewrite (Parse_colon_exact text name nid path dns) by done.
  by rewrite (decide_False (P := path = [])).
Qed.

Lemma Parse_with_colon_witness :
  Forall (λ c, c ≠ NUL) (list_ascii_of_string "(w)n:a\b@d")
  ∧ state_prefix (list_ascii_of_string "(w)n:a\b@d")
    = Some (["w"%char],
            ["n"%char] ++ ":"%char :: ["a"; "\"; "b"]%char
              ++ resolver_suffix (Some ["d"%char]))
  ∧ (":"%char ∉ ["n"%char])
  ∧ ("@"%char ∉ ["a"; "\"; "b"]%char)
  ∧ Parse "(w)n:a\b@d" = Defined (mkNPLFileName "w" "n" "a/b" "d").
Proof.
  assert (Forall (λ c, c ≠ NUL) (list_ascii_of_string "(w)n:a\b@d")) as H1
    by (apply (bool_decide_unpack _); vm_compute; exact I).
  assert (":"%char ∉ ["n"%char]) as H3
    by (apply (bool_decide_unpack _); vm_compute; exact I).
  assert ("@"%char ∉ ["a"; "\"; "b"]%char) as H4
    by (apply (bool_decide_unpack _); vm_compute; exact I).
  split; [exact H1 |]. split; [reflexivity |]. split; [exact H3 |].
  split; [exact H4 |].
  exact (Parse_with_colon "(w)n:a\b@d" ["w"%char] ["n"%char]
           ["a"; "\"; "b"]%char (Some ["d"%char]) H1 eq_refl H3 H4
           ltac:(discriminate)).
Defined.

(** X2.  A text whose path is empty and which names a resolver,
    [[(name)]nid:@dns]: [SetRelativePath] is called with the count 0, for
    which it copies the whole rest of the text, so the relative path is
    ["@dns"] (with backslashes turned into slashes) while the resolver name
    is [dns] as well. *)
Theorem Parse_empty_path_takes_resolver (text : string)
    (name nid dns : list ascii) :
  Forall (λ c, c ≠ NUL) (list_ascii_of_string text) →
  state_prefix (list_ascii_of_string text)
  = Some (name, nid ++ ":"%char :: "@"%char :: dns) →
  ":"%char ∉ nid →
  Parse text
  = Defined (mkNPLFileName
               (if decide (name = ["g"; "l"]%char) then ""
                else string_of_list_ascii name)
               (string_of_list_ascii nid)
               (slashes (string_of_list_ascii ("@"%char :: dns)))
               (string_of_list_ascii dns)).
Proof.
  intros Hnul Hprefix Hnid.
  by rewrite (Parse_colon_exact text name nid [] (Some dns));
    [| | | | apply not_elem_of_nil].
Qed.

Lemma Parse_empty_path_takes_resolver_witness :
  Forall (λ c, c ≠ NUL) (list_ascii_of_string "n:@d")
  ∧ state_prefix (list_ascii_of_string "n:@d")
    = Some ([], ["n"%char] ++ ":"%char :: "@"%char :: ["d"%char])
  ∧ (":"%char ∉ ["n"%char])
  ∧ Parse "n:@d" = Defined (mkNPLFileName "" "n" "@d" "d").
Proof.
  assert (Forall (λ c, c ≠ NUL) (list_ascii_of_string "n:@d")) as H1
    by (apply (bool_decide_unpack _); vm_compute; exact I).
  assert (":"%char ∉ ["n"%char]) as H3
    by (apply (bool_decide_unpack _); vm_compute; exact I).
  split; [exact H1 |]. split; [reflexivity |]. split; [exact H3 |].
  exact (Parse_empty_path_takes_resolver "n:@d" [] ["n"%char] ["d"%char]
           H1 eq_refl H3).
Defined.

(** ** [SetRelativePath] *)

Lemma string_length_of_list (l : list ascii) :
  String.length (string_of_list_ascii l) = length l.
Proof. induction l as [|c l IH]; simpl; [done | by rewrite IH]. Qed.

Lemma slashes_no_backslash (s : string) :
  "\"%char ∉ list_ascii_of_string (slashes s).
Proof.
  unfold slashes. rewrite list_ascii_of_string_of_list_ascii.
  intros (c & Hc & _)%list_elem_of_fmap. unfold to_slash in Hc.
  case_decide; [discriminate Hc | congruence].
Qed.

Lemma slashes_length (s : string) :
  String.length (slashes s) = length (list_ascii_of_string s).
Proof. unfold slashes. by rewrite string_length_of_list, length_fmap. Qed.

(** X3.  [SetRelativePath(sPath, nCount)] on a buffer that holds a C
    string: no backslash is left in the path; a positive [nCount] gives a path
    of that many characters, and a count of 0 or below gives the whole text
    from [sPath] to the terminator, so the count 0 does not give the empty
    path. *)
Theorem SetRelativePath_forward_slashes (l : list ascii) (start nCount : Z) :
  Forall (λ c, c ≠ NUL) l →
  0 ≤ start ≤ Z.of_nat (length l) →
  start + nCount ≤ Z.of_nat (length l) →
  ∃ s, SetRelativePath (l ++ [NUL]) start nCount = Defined s
       ∧ ("\"%char ∉ list_ascii_of_string s)
       ∧ Z.of_nat (String.length s)
         = (if decide (nCount ≤ 0) then Z.of_nat (length l) - start
            else nCount).
Proof.
  intros Hnul H1 H3. unfold SetRelativePath.
  pose proof (take_drop (Z.to_nat start) l) as Hl.
  assert (start = Z.of_nat (length (take (Z.to_nat start) l))) as Ha
    by (rewrite length_take; lia).
  revert Hl Ha.
  generalize (take (Z.to_nat start) l) (drop (Z.to_nat start) l).
  intros a b <- Ha. rewrite length_app in *.
  apply Forall_app in Hnul as [_ Hb].
  case_decide as Hn.
  - erewrite (assign_cstr_rest _ a b []);
      [| by rewrite <- (assoc_L (++)) | done | done].
    eexists. split; [reflexivity |]. split; [apply slashes_no_backslash |].
    rewrite slashes_length, list_ascii_of_string_of_list_ascii. lia.
  - rewrite <- (take_drop (Z.to_nat nCount) b).
    erewrite (assign_middle _ a (take (Z.to_nat nCount) b));
      [| by rewrite <- !(assoc_L (++)) | done | rewrite length_take; lia].
    eexists. split; [reflexivity |]. split; [apply slashes_no_backslash |].
    rewrite slashes_length, list_ascii_of_string_of_list_ascii, length_take.
    lia.
Qed.

Lemma SetRelativePath_forward_slashes_witness :
  Forall (λ c, c ≠ NUL) (list_ascii_of_string "n:a\b@d")
  ∧ ∃ s, SetRelativePath (list_ascii_of_string "n:a\b@d" ++ [NUL]) 2 0
         = Defined s
         ∧ ("\"%char ∉ list_ascii_of_string s)
         ∧ Z.of_nat (String.length s) = 5.
Proof.
  assert (Forall (λ c, c ≠ NUL) (list_ascii_of_string "n:a\b@d")) as H1
    by (apply (bool_decide_unpack _); vm_compute; exact I).
  split; [exact H1 |].
  exact (SetRelativePath_forward_slashes (list_ascii_of_string "n:a\b@d") 2 0
           H1 ltac:(simpl; lia) ltac:(simpl; lia)).
Defined.

(** ** What [FromString] leaves as it was *)

Lemma FromString_namespace_state (p : list ascii) (state : string) (i : Z)
    (r : NPLFileName) :
  FromString_namespace p state i = Defined r → sRuntimeStateName r = state.
Proof.
  unfold FromString_namespace. intros H.
  destruct (scan ":"%char p i) as [i1 |]; simpl in H; [| done].
  destruct (peek p i1) as [c1 |]; simpl in H; [| done].
  case_decide.
  { destruct (assign p i (i1 - i)); simpl in H; [| done]. by injection H as <-. }
  destruct (if decide (i1 > i) then assign p i (i1 - i) else Defined "")
    as [nid |]; simpl in H; [| done].
  destruct (scan "@"%char p (i1 + 1)) as [i2 |]; simpl in H; [| done].
  destruct (SetRelativePath p (i1 + 1) (i2 - (i1 + 1))); simpl in H; [| done].
  destruct (peek p i2) as [c2 |]; simpl in H; [| done].
  case_decide; [by injection H as <- |].
  destruct (scan NUL p (i2 + 1)) as [i3 |]; simpl in H; [| done].
  destruct (assign p (i2 + 1) (i3 - (i2 + 1))); simpl in H; [| done].
  by injection H as <-.
Qed.

(** X4.  [FromString] on a non-empty text that does not open with ['(']
    has defined behaviour and leaves [sRuntimeStateName] as it was before
    the call: the state name of an earlier parse stays in the object.  (The
    empty text clears it, and so does ["(gl)"].) *)
Theorem FromString_keeps_state_name (this : NPLFileName) (c : ascii)
    (s : string) :
  c ≠ "("%char →
  Forall (λ x, x ≠ NUL) (c :: list_ascii_of_string s) →
  ∃ r, FromString this (String c s) = Defined r
       ∧ sRuntimeStateName r = sRuntimeStateName this.
Proof.
  intros Hc Hnul. unfold FromString, c_str.
  change (list_ascii_of_string (String c s)) with (c :: list_ascii_of_string s).
  assert (peek ((c :: list_ascii_of_string s) ++ [NUL]) 0 = Defined c) as ->
    by reflexivity.
  simpl. rewrite decide_False by (by apply Forall_cons in Hnul as [? _]).
  rewrite decide_False by done. simpl.
  destruct (FromString_namespace_defined (c :: list_ascii_of_string s)
              (sRuntimeStateName this) 0) as [r Hr]; [simpl; lia |].
  exists r. split; [exact Hr |]. by apply FromString_namespace_state in Hr.
Qed.

Lemma FromString_keeps_state_name_witness :
  "b"%char ≠ "("%char
  ∧ Forall (λ x, x ≠ NUL) ("b"%char :: list_ascii_of_string ":c")
  ∧ ∃ r, FromString (mkNPLFileName "w" "" "a" "") "b:c" = Defined r
         ∧ sRuntimeStateName r = "w".
Proof.
  assert ("b"%char ≠ "("%char) as H1 by discriminate.
  assert (Forall (λ x, x ≠ NUL) ("b"%char :: list_ascii_of_string ":c")) as H2
    by (apply (bool_decide_unpack _); vm_compute; exact I).
  split; [exact H1 |]. split; [exact H2 |].
  exact (FromString_keeps_state_name (mkNPLFileName "w" "" "a" "")
           "b"%char ":c" H1 H2).
Defined.

(** ** Serialising what was parsed *)

Lemma string_of_list_ascii_app (l1 l2 : list ascii) :
  string_of_list_ascii (l1 ++ l2)
  = string_of_list_ascii l1 +:+ string_of_list_ascii l2.
Proof. induction l1 as [|c l1 IH]; simpl; [done | by rewrite IH]. Qed.

Lemma string_app_assoc (s1 s2 s3 : string) :
  (s1 +:+ s2) +:+ s3 = s1 +:+ (s2 +:+ s3).
Proof.
  induction s1 as [|c s1 IH]; [done |].
  change (String c ((s1 +:+ s2) +:+ s3) = String c (s1 +:+ (s2 +:+ s3))).
  by rewrite IH.
Qed.

(** X5.  A text without [':'] is parsed and serialised back: [ToString]
    gives the text again, except that an opening ["()"] or ["(gl)"] is
    dropped. *)
Theorem ToString_Parse_no_colon (text : string) (name rest : list ascii) :
  plain ":"%char (list_ascii_of_string text) →
  state_prefix (list_ascii_of_string text) = Some (name, rest) →
  ∃ r, Parse text = Defined r
       ∧ ToString r
         = (if decide (name = [] ∨ name = ["g"; "l"]%char)
            then string_of_list_ascii rest else text).
Proof.
  intros Hplain Hprefix.
  destruct (decide (text = "")) as [-> | Hne].
  { injection Hprefix as <- <-. eexists. split; [reflexivity |]. done. }
  rewrite (Parse_no_colon_exact text name rest) by done.
  eexists. split; [reflexivity |]. unfold ToString. simpl.
  assert (∀ s : string, (if decide (s = "") then "" else "" +:+ s) = s) as Hs
    by (intros s; by case_decide).
  destruct (decide (name = [] ∨ name = ["g"; "l"]%char)) as [Hname | Hname].
  - assert ((if decide (name = ["g"; "l"]%char) then ""
             else string_of_list_ascii name) = "") as ->.
    { destruct Hname as [-> | ->]; [done | by rewrite decide_True]. }
    simpl. apply Hs.
  - rewrite (decide_False (P := name = ["g"; "l"]%char)) by tauto.
    destruct name as [|c name]; [tauto |]. simpl.
    rewrite <- (string_of_list_ascii_of_string text).
    destruct (list_ascii_of_string text) as [|x l]; [done |].
    simpl in Hprefix. case_decide as Hx; [| done]. subst x.
    apply split_at_app in Hprefix as [-> _]. simpl.
    rewrite !string_of_list_ascii_app. simpl.
    case_decide as Hrest.
    + rewrite Hrest. by rewrite !string_app_assoc.
    + by rewrite !string_app_assoc.
Qed.

Lemma ToString_Parse_no_colon_witness :
  plain ":"%char (list_ascii_of_string "(w)a@b")
  ∧ state_prefix (list_ascii_of_string "(w)a@b")
    = Some (["w"%char], ["a"; "@"; "b"]%char)
  ∧ ∃ r, Parse "(w)a@b" = Defined r ∧ ToString r = "(w)a@b".
Proof.
  assert (plain ":"%char (list_ascii_of_string "(w)a@b")) as H1
    by (repeat constructor; done).
  split; [exact H1 |]. split; [reflexivity |].
  exact (ToString_Parse_no_colon "(w)a@b" ["w"%char] ["a"; "@"; "b"]%char
           H1 eq_refl).
Defined.


(** ** One message from activation to callback *)

Ltac run_step :=
  first
    [ rewrite bind_assoc
    | erewrite bind_Val;
      [| first [ apply deref_Some; first [eassumption | apply lookup_insert_eq]
               | apply update_Some; first [eassumption | apply lookup_insert_eq]
               | reflexivity ] ] ].

(** X8.  On a state with an empty mailbox, a callback that reads its
    message is registered under a path, a message is sent to that path from
    the state itself, and [Process] is called: it returns 1, the callback was
    invoked once and read the payload that was sent (the empty text for a
    null payload) with its length, and afterwards the state has no current
    message and an empty mailbox. *)
Theorem handler_receives_payload (fuel : nat) (this : addr)
    (st : CNPLMiniState) (w : World) (text file : string)
    (code : option string) (nLength : Z) :
  heap w !! this = Some st →
  m_input_queue st = [] →
  Parse text = Defined (mkNPLFileName "" "" file "") →
  ∃ w' st',
    (RegisterFileHandler this (Some file) (Some [ReadCurrentMsg]) ;;
     Activate (Some this) (Some text) code nLength ;;
     Process (S (S fuel)) this) w = Val 1 w'
    ∧ trace w'
      = trace w
        ++ [EvProcess this; EvInvoke this file (default "" code);
            EvRead this (Some (default "" code))
              (Z.of_nat (String.length (default "" code)))]
    ∧ heap w' !! this = Some st'
    ∧ m_current_msg st' = None
    ∧ m_current_msg_length st' = 0
    ∧ m_input_queue st' = []
    ∧ m_processed_msg_count st' = m_processed_msg_count st + 1.
Proof.
  intros Hst Hq Hparse.
  assert (NPLMiniMessage_new (Some file) code nLength
          = mkNPLMiniMessage file (default "" code) 0) as Hmsg.
  { unfold NPLMiniMessage_new. by destruct code; [case_decide |]. }
  eexists _, _. split.
  - erewrite bind_Val; [| by apply RegisterFileHandler_Some].
    unfold Activate. rewrite Hparse. simpl.
    unfold Activate_async, activate. rewrite Hmsg.
    repeat run_step. simpl. rewrite Hq. simpl.
    unfold Process. repeat run_step. simpl.
    repeat run_step. simpl.
    unfold ProcessMsg. repeat first [run_step | progress simpl].
    rewrite lookup_insert_eq. unfold SetCurrentMessage.
    repeat run_step.
    erewrite bind_Val.
    2:{ eapply finally_Val.
        - unfold invoke, run_actions, run_action, GetCurrentMsg,
            GetCurrentMsgLength.
          repeat run_step. reflexivity.
        - apply update_Some. apply lookup_insert_eq. }
    repeat first [run_step | progress simpl]. reflexivity.
  - simpl. rewrite !insert_insert_eq, lookup_insert_eq.
    rewrite <- !(assoc_L (++)). simpl. done.
Qed.

Lemma handler_receives_payload_witness :
  heap runtime0 !! main0 = Some (mkCNPLMiniState None 0 "main" [] ∅ 0)
  ∧ Parse "script/ping.lua"
    = Defined (mkNPLFileName "" "" "script/ping.lua" "")
  ∧ ∃ w' st',
      (RegisterFileHandler main0 (Some "script/ping.lua")
         (Some [ReadCurrentMsg]) ;;
       Activate (Some main0) (Some "script/ping.lua") (Some "hello") 0 ;;
       Process 2 main0) runtime0 = Val 1 w'
      ∧ trace w'
        = [EvProcess main0; EvInvoke main0 "script/ping.lua" "hello";
           EvRead main0 (Some "hello") 5]
      ∧ heap w' !! main0 = Some st'
      ∧ m_current_msg st' = None
      ∧ m_current_msg_length st' = 0
      ∧ m_input_queue st' = []
      ∧ m_processed_msg_count st' = 1.
Proof.
  assert (heap runtime0 !! main0 = Some (mkCNPLMiniState None 0 "main" [] ∅ 0))
    as H1 by (vm_compute; reflexivity).
  split; [exact H1 |]. split; [reflexivity |].
  exact (handler_receives_payload 0 main0 _ runtime0 "script/ping.lua"
           "script/ping.lua" (Some "hello") 0 H1 eq_refl eq_refl).
Defined.

(** X9.  A callback is a callback of one state.  A callback is registered
    under a path on state [a] and a message for that path is sent to another
    state [b], which has an empty mailbox and no callback under the path:
    [Process] on [b] returns 1 and counts the message, and no callback is
    invoked. *)
Theorem handlers_are_per_state (fuel : nat) (a b : addr)
    (sta stb : CNPLMiniState) (w : World) (text file : string)
    (cb : Callback) (code : option string) (nLength : Z) :
  a ≠ b →
  heap w !! a = Some sta →
  heap w !! b = Some stb →
  m_input_queue stb = [] →
  m_file_handlers_map stb !! file = None →
  Parse text = Defined (mkNPLFileName "" "" file "") →
  ∃ w' stb',
    (RegisterFileHandler a (Some file) cb ;;
     Activate (Some b) (Some text) code nLength ;;
     Process (S (S fuel)) b) w = Val 1 w'
    ∧ trace w' = trace w ++ [EvProcess b]
    ∧ heap w' !! b = Some stb'
    ∧ m_input_queue stb' = []
    ∧ m_processed_msg_count stb' = m_processed_msg_count stb + 1.
Proof.
  intros Hab Hsta Hstb Hq Hnone Hparse.
  eexists _, _. split.
  - erewrite bind_Val; [| by apply RegisterFileHandler_Some].
    unfold Activate. rewrite Hparse. simpl.
    unfold Activate_async, activate.
    repeat rewrite bind_assoc.
    erewrite bind_Val;
      [| apply update_Some; simpl; by rewrite lookup_insert_ne].
    repeat run_step. simpl. rewrite Hq. simpl.
    unfold Process. repeat run_step. simpl.
    repeat run_step. simpl.
    unfold ProcessMsg. repeat first [run_step | progress simpl].
    rewrite Hnone.
    repeat first [run_step | progress simpl]. reflexivity.
  - simpl. rewrite lookup_insert_eq. done.
Qed.

Lemma handlers_are_per_state_witness :
  let w := world_after (CreateState "w1") runtime0 in
  2%positive ≠ main0
  ∧ heap w !! 2%positive = Some (CNPLMiniState_new (Some "w1"))
  ∧ heap w !! main0 = Some (CNPLMiniState_new (Some "main"))
  ∧ Parse "script/ping.lua"
    = Defined (mkNPLFileName "" "" "script/ping.lua" "")
  ∧ ∃ w' stb',
      (RegisterFileHandler 2%positive (Some "script/ping.lua")
         (Some [ReadCurrentMsg]) ;;
       Activate (Some main0) (Some "script/ping.lua") (Some "hello") 0 ;;
       Process 2 main0) w = Val 1 w'
      ∧ trace w' = trace w ++ [EvProcess main0]
      ∧ heap w' !! main0 = Some stb'
      ∧ m_input_queue stb' = []
      ∧ m_processed_msg_count stb' = 1.
Proof.
  intros w.
  assert (2%positive ≠ main0) as H1 by discriminate.
  assert (heap w !! 2%positive = Some (CNPLMiniState_new (Some "w1"))) as H2
    by (vm_compute; reflexivity).
  assert (heap w !! main0 = Some (CNPLMiniState_new (Some "main"))) as H3
    by (vm_compute; reflexivity).
  split; [exact H1 |]. split; [exact H2 |]. split; [exact H3 |].
  split; [reflexivity |].
  exact (handlers_are_per_state 0 2%positive main0 _ _ w "script/ping.lua"
           "script/ping.lua" (Some [ReadCurrentMsg]) (Some "hello") 0
           H1 H2 H3 eq_refl eq_refl eq_refl).
Defined.

(** ** A callback that answers into its own mailbox *)

Lemma ProcessMsg_self_posting (this : addr) (st : CNPLMiniState) (w : World)
    (msg : NPLMiniMessage) (text file : string) (code : option string) :
  heap w !! this = Some st →
  Parse text = Defined (mkNPLFileName "" "" file "") →
  m_file_handlers_map st !! file = Some (Some [CallActivate true text code]) →
  m_sFilename msg = file → m_type msg = 0 →
  ∃ w' st',
    ProcessMsg this msg w = Val 0 w'
    ∧ heap w' !! this = Some st'
    ∧ m_file_handlers_map st' = m_file_handlers_map st
    ∧ m_input_queue st'
      = m_input_queue st ++ [NPLMiniMessage_new (Some file) code 0].
Proof.
  intros Hst Hparse Hcb Hfile Htype. eexists _, _. split.
  - unfold ProcessMsg. rewrite Htype, Hfile.
    repeat first [run_step | progress simpl].
    rewrite Hcb. unfold SetCurrentMessage. repeat run_step.
    erewrite bind_Val.
    2:{ eapply finally_Val.
        - unfold invoke, run_actions, run_action, Activate.
          rewrite Hparse. simpl. unfold Activate_async, activate.
          repeat run_step. reflexivity.
        - apply update_Some. apply lookup_insert_eq. }
    reflexivity.
  - simpl. rewrite lookup_insert_eq. done.
Qed.

Lemma Process_loop_self_posting (this : addr) (text file : string)
    (code : option string) (fuel : nat) :
  ∀ (nCount : Z) (st : CNPLMiniState) (w : World),
    heap w !! this = Some st →
    Parse text = Defined (mkNPLFileName "" "" file "") →
    m_file_handlers_map st !! file = Some (Some [CallActivate true text code]) →
    m_input_queue st ≠ [] →
    Forall (λ msg, m_sFilename msg = file ∧ m_type msg = 0) (m_input_queue st) →
    Process_loop fuel this nCount w = OutOfFuel.
Proof.
  induction fuel as [|fuel IH]; intros nCount st w Hst Hparse Hcb Hne Hall;
    [done |].
  simpl. erewrite bind_Val; [| by apply deref_Some].
  destruct (m_input_queue st) as [|msg q] eqn:Hq; [done |].
  apply Forall_cons in Hall as [[Hfile Htype] Hall].
  destruct (ProcessMsg_self_posting this st w msg text file code)
    as (w1 & st1 & Hrun & Hst1 & Hh1 & Hq1); try done.
  erewrite bind_Val; [| exact Hrun].
  erewrite bind_Val; [| by apply (update_Some _ _ st1)].
  eapply (IH _ (set_queue (tail (m_input_queue st1)) st1)).
  - apply lookup_insert_eq.
  - done.
  - simpl. by rewrite Hh1.
  - simpl. rewrite Hq1, Hq. simpl. by destruct q.
  - simpl. rewrite Hq1, Hq. simpl. apply Forall_app. split; [done |].
    constructor; [| done]. by destruct code.
Qed.

(** X10.  A callback that answers every message by activating its own file
    on its own state keeps the mailbox from ever becoming empty: the loop of
    [Process] dispatches the answers in the same call and does not return,
    whatever the bound on its iterations. *)
Theorem Process_self_posting_never_returns (fuel : nat) (this : addr)
    (st : CNPLMiniState) (w : World) (text file : string)
    (code : option string) :
  heap w !! this = Some st →
  Parse text = Defined (mkNPLFileName "" "" file "") →
  m_file_handlers_map st !! file = Some (Some [CallActivate true text code]) →
  m_input_queue st ≠ [] →
  Forall (λ msg, m_sFilename msg = file ∧ m_type msg = 0) (m_input_queue st) →
  Process fuel this w = OutOfFuel.
Proof.
  intros Hst Hparse Hcb Hne Hall. unfold Process.
  erewrite bind_Val; [| reflexivity].
  by eapply (Process_loop_self_posting this text file code fuel 0 st).
Qed.

Lemma Process_self_posting_never_returns_witness :
  let st := mkCNPLMiniState None 0 "main"
              [mkNPLMiniMessage "script/echo.lua" "go" 0]
              {["script/echo.lua"
                := Some [CallActivate true "script/echo.lua" (Some "again")]]}
              0 in
  heap sample_echo !! main0 = Some st
  ∧ Process 1000 main0 sample_echo = OutOfFuel.
Proof.
  intros st.
  assert (heap sample_echo !! main0 = Some st) as H1
    by (vm_compute; reflexivity).
  split; [exact H1 |].
  exact (Process_self_posting_never_returns 1000 main0 st sample_echo
           "script/echo.lua" "script/echo.lua" (Some "again")
           H1 eq_refl eq_refl ltac:(discriminate)
           ltac:(repeat constructor)).
Defined.

(** ** Callbacks that raise or keep sending *)


(** C3, counterexample.  In [sample_mixed] the callback of the second of
    three messages raises: whatever the loop bound, [Process] returns no
    count; the exception leaves it while two of the three messages are still
    queued.  In [sample_echo] the callback answers every message by a message
    to its own state: the mailbox never becomes empty and [Process] does not
    return, whatever the bound on its iterations. *)
Lemma Process_raising_or_reposting_callback :
  (∀ fuel n w', Process fuel main0 sample_mixed ≠ Val n w')
  ∧ (∀ fuel,
      ∃ w' st',
        Process (S (S fuel)) main0 sample_mixed
        = Thrown (client_exception "boom") w'
        ∧ heap w' !! main0 = Some st'
        ∧ length (m_input_queue st') = 2%nat
        ∧ m_processed_msg_count st' = 2)
  ∧ (∀ fuel, Process fuel main0 sample_echo = OutOfFuel).
Proof.
  split; [| split].
  - intros fuel n w'. destruct fuel as [|[|fuel]]; vm_compute; discriminate.
  - intros fuel. eexists _, _. split; [vm_compute; reflexivity |].
    split; [vm_compute; reflexivity |]. split; reflexivity.
  - intros fuel. unfold Process. erewrite bind_Val; [| reflexivity].
    eapply (Process_loop_self_posting main0 "script/echo.lua" "script/echo.lua"
              (Some "again") fuel 0).
    + vm_compute. reflexivity.
    + reflexivity.
    + reflexivity.
    + discriminate.
    + by repeat constructor.
Qed.


(** X24.  A message that a callback sends to its own state is dispatched
    by the same call of [Process].  The mailbox holds one message for [file1],
    whose callback activates [file2] on its own state, and the callback of
    [file2] reads its message: [Process] returns 2, both callbacks were
    invoked in that order, the second on the payload that the first sent, and
    the mailbox is empty afterwards. *)
Theorem Process_dispatches_own_answer (fuel : nat) (this : addr)
    (st : CNPLMiniState) (w : World) (file1 code1 text2 file2 : string)
    (code2 : option string) :
  heap w !! this = Some st →
  m_input_queue st = [mkNPLMiniMessage file1 code1 0] →
  m_file_handlers_map st !! file1 = Some (Some [CallActivate true text2 code2]) →
  m_file_handlers_map st !! file2 = Some (Some [ReadCurrentMsg]) →
  Parse text2 = Defined (mkNPLFileName "" "" file2 "") →
  ∃ w' st',
    Process (S (S (S fuel))) this w = Val 2 w'
    ∧ trace w'
      = trace w
        ++ [EvProcess this; EvInvoke this file1 code1;
            EvInvoke this file2 (default "" code2);
            EvRead this (Some (default "" code2))
              (Z.of_nat (String.length (default "" code2)))]
    ∧ heap w' !! this = Some st'
    ∧ m_input_queue st' = []
    ∧ m_processed_msg_count st' = m_processed_msg_count st + 2.
Proof.
  intros Hst Hq Hcb1 Hcb2 Hparse.
  assert (NPLMiniMessage_new (Some file2) code2 0
          = mkNPLMiniMessage file2 (default "" code2) 0) as Hmsg.
  { unfold NPLMiniMessage_new. by destruct code2. }
  eexists _, _. split.
  - unfold Process. repeat run_step. simpl. repeat run_step. rewrite Hq.
    unfold ProcessMsg at 1. repeat first [run_step | progress simpl].
    rewrite Hcb1. unfold SetCurrentMessage. repeat run_step.
    erewrite bind_Val.
    2:{ eapply finally_Val.
        - unfold invoke, run_actions, run_action, Activate.
          rewrite Hparse. simpl. unfold Activate_async, activate.
          rewrite Hmsg. repeat run_step. reflexivity.
        - apply update_Some. apply lookup_insert_eq. }
    repeat first [run_step | progress simpl]. rewrite Hq. simpl.
    unfold ProcessMsg. repeat first [run_step | progress simpl].
    rewrite Hcb2. unfold SetCurrentMessage. repeat run_step.
    erewrite bind_Val.
    2:{ eapply finally_Val.
        - unfold invoke, run_actions, run_action, GetCurrentMsg,
            GetCurrentMsgLength.
          repeat run_step. reflexivity.
        - apply update_Some. apply lookup_insert_eq. }
    repeat first [run_step | progress simpl]. reflexivity.
  - simpl. rewrite lookup_insert_eq.
    rewrite <- !(assoc_L (++)). simpl.
    split; [done |]. split; [reflexivity |]. split; [done |].
    simpl. lia.
Qed.

Lemma Process_dispatches_own_answer_witness :
  let st := mkCNPLMiniState None 0 "main"
              [mkNPLMiniMessage "a.lua" "ask" 0]
              {["a.lua" := Some [CallActivate true "b.lua" (Some "answer")];
                "b.lua" := Some [ReadCurrentMsg]]} 0 in
  let w := set_heap (<[main0 := st]> (heap runtime0)) runtime0 in
  heap w !! main0 = Some st
  ∧ ∃ w' st',
      Process 3 main0 w = Val 2 w'
      ∧ trace w'
        = [EvProcess main0; EvInvoke main0 "a.lua" "ask";
           EvInvoke main0 "b.lua" "answer"; EvRead main0 (Some "answer") 6]
      ∧ heap w' !! main0 = Some st'
      ∧ m_input_queue st' = []
      ∧ m_processed_msg_count st' = 2.
Proof.
  intros st w.
  assert (heap w !! main0 = Some st) as H1 by (vm_compute; reflexivity).
  split; [exact H1 |].
  exact (Process_dispatches_own_answer 0 main0 st w "a.lua" "ask" "b.lua"
           "b.lua" (Some "answer") H1 eq_refl eq_refl eq_refl eq_refl).
Defined.

(** ** The length argument *)

Lemma activate_length (this : addr) (f c : option string) (n : Z) (w : World) :
  activate this f c n w = activate this f c 0 w.
Proof.
  unfold activate, update, bind, deref.
  destruct (heap w !! this) as [st |]; [| done]. simpl.
  unfold NPLMiniMessage_new. by destruct c; [case_decide |].
Qed.

(** X12.  The length that [Activate] is given has no effect: the message
    that is queued holds the payload up to its terminator whatever [nLength]
    is, and so do the status and the target. *)
Theorem Activate_ignores_length (pRuntimeState : option addr)
    (sNeuronFile code : option string) (nLength : Z) (w : World) :
  Activate pRuntimeState sNeuronFile code nLength w
  = Activate pRuntimeState sNeuronFile code 0 w.
Proof.
  unfold Activate, Activate_async.
  destruct sNeuronFile as [file |]; [| done].
  destruct (Parse file) as [FullName | u]; [| done].
  destruct pRuntimeState as [from |].
  - case_decide; [| done]. case_decide.
    + unfold bind at 1 3.
      destruct (GetRuntimeState (sRuntimeStateName FullName) w)
        as [[a |] w' | | |]; try done.
      unfold bind. by rewrite activate_length.
    + unfold bind. by rewrite activate_length.
  - unfold bind at 1 3, get.
    destruct (m_runtime_state_main w) as [main |]; [| done].
    unfold bind. by rewrite activate_length.
Qed.

(** ** The current message between dispatches *)

#[local] Instance keeps_inv_refl (P : World → Prop) : Reflexive (keeps_inv P).
Proof. by intros w H. Qed.

#[local] Instance keeps_inv_trans (P : World → Prop) : Transitive (keeps_inv P).
Proof. intros w1 w2 w3 H1 H2 H. by apply H2, H1. Qed.

Lemma keeps_same_heap (e : option addr) (w w' : World) :
  heap w' = heap w → keeps_inv (no_current_message e) w w'.
Proof. unfold keeps_inv, no_current_message. by intros ->. Qed.

Lemma update_no_current (e : option addr) (a : addr)
    (f : CNPLMiniState → CNPLMiniState) :
  (∀ st, m_current_msg (f st) = m_current_msg st
         ∧ m_current_msg_length (f st) = m_current_msg_length st) →
  preserves (keeps_inv (no_current_message e)) (update a f).
Proof.
  intros Hf w. unfold update, bind, deref.
  destruct (heap w !! a) as [st |] eqn:Hst; [| done]. simpl.
  intros HI b st' Hb Hne. simpl in Hb.
  destruct (decide (b = a)) as [-> | Hba].
  - rewrite lookup_insert_eq in Hb. injection Hb as <-.
    destruct (Hf st) as [-> ->]. by apply (HI a).
  - rewrite lookup_insert_ne in Hb by done. by apply (HI b).
Qed.

Lemma release_no_current (e : option addr) :
  preserves (keeps_inv (no_current_message e)) release.
Proof.
  intros w HI b st [Hb _]%map_lookup_filter_Some. by apply (HI b).
Qed.

Lemma GetRuntimeState_no_current (e : option addr) (name : string) :
  preserves (keeps_inv (no_current_message e)) (GetRuntimeState name).
Proof. unfold GetRuntimeState. preserve. Qed.

Ltac preserve_nc :=
  repeat first
    [ apply GetRuntimeState_no_current
    | apply update_no_current; by intros
    | apply release_no_current
    | apply preserves_modify; intros ?; by apply keeps_same_heap
    | apply preserves_ret; [tc_solve ..]
    | apply preserves_throw; [tc_solve ..]
    | apply preserves_undefined
    | apply preserves_get; [tc_solve ..]
    | apply preserves_deref; [tc_solve ..]
    | apply preserves_bind; [tc_solve .. | | intros ?]
    | case_decide
    | case_match ].

Lemma CreateRuntimeState_no_current (e : option addr) (name : string) :
  preserves (keeps_inv (no_current_message e)) (CreateRuntimeState name).
Proof.
  unfold CreateRuntimeState.
  apply preserves_bind; [tc_solve .. | apply GetRuntimeState_no_current |].
  intros [a |]; [preserve_nc |].
  apply preserves_bind; [tc_solve .. | preserve_nc |]. intros w0.
  apply preserves_bind; [tc_solve .. | | intros _; preserve_nc].
  intros w HI b st Hb Hne. simpl in Hb.
  destruct (decide (b = fresh (dom (heap w0)))) as [-> | Hba].
  - rewrite lookup_insert_eq in Hb. by injection Hb as <-.
  - rewrite lookup_insert_ne in Hb by done. by apply (HI b).
Qed.

Lemma DeleteRuntimeState_no_current (e : option addr) (p : option addr) :
  preserves (keeps_inv (no_current_message e)) (DeleteRuntimeState p).
Proof. unfold DeleteRuntimeState. preserve_nc. Qed.

Lemma Activate_no_current (e : option addr) (from : option addr)
    (file code : option string) (n : Z) :
  preserves (keeps_inv (no_current_message e)) (Activate from file code n).
Proof. unfold Activate, Activate_async, activate. preserve_nc. Qed.

Lemma run_action_no_current (e : option addr) (this : addr) (act : Action) :
  preserves (keeps_inv (no_current_message e)) (run_action this act).
Proof.
  destruct act; unfold run_action.
  - unfold GetCurrentMsg, GetCurrentMsgLength, observe. preserve_nc.
  - apply preserves_bind; [tc_solve .. | apply Activate_no_current |].
    intros ?. preserve_nc.
  - apply preserves_bind; [tc_solve .. | apply CreateRuntimeState_no_current |].
    intros ?. preserve_nc.
  - apply preserves_bind; [tc_solve .. | apply DeleteRuntimeState_no_current |].
    intros ?. preserve_nc.
  - apply preserves_bind; [tc_solve .. | |].
    + unfold GetState. apply GetRuntimeState_no_current.
    + intros p. apply preserves_bind; [tc_solve .. | | intros ?; preserve_nc].
      unfold DeleteState.
      destruct p; [apply DeleteRuntimeState_no_current | preserve_nc].
  - preserve_nc.
Qed.

Lemma invoke_no_current (e : option addr) (cb : Callback) (this : addr) :
  preserves (keeps_inv (no_current_message e)) (invoke cb this).
Proof.
  destruct cb as [body |]; simpl; [| preserve_nc].
  induction body as [|act body IH]; simpl; [preserve_nc |].
  apply preserves_bind; [tc_solve .. | apply run_action_no_current | by intros].
Qed.

(** The guard of [ProcessMsg]: whichever way the guarded call leaves, the
    destructor takes the current message of [this] away. *)
Lemma guard_idle {A} (this : addr) (m : M A) (w : World) :
  preserves (keeps_inv (no_current_message (Some this))) m →
  no_current_message (Some this) w →
  match finally m (SetCurrentMessage this None 0) w with
  | Val _ w' | Thrown _ w' => idle w'
  | _ => True
  end.
Proof.
  intros Hm HI. unfold finally. specialize (Hm w).
  assert (∀ w', no_current_message (Some this) w' →
            ∀ st, heap w' !! this = Some st →
              idle (set_heap (<[this := set_current None 0 st]> (heap w')) w'))
    as Hreset.
  { intros w' HI' st Hst b st' Hb _. simpl in Hb.
    destruct (decide (b = this)) as [-> | Hne].
    - rewrite lookup_insert_eq in Hb. by injection Hb as <-.
    - rewrite lookup_insert_ne in Hb by done. apply (HI' b st' Hb). congruence. }
  destruct (m w) as [a w' | e w' | u |]; [| | done ..];
    unfold bind, SetCurrentMessage, update, bind, deref;
    (destruct (heap w' !! this) as [st |] eqn:Hst; [| done]); simpl;
    by apply Hreset; [apply Hm |].
Qed.

Lemma ProcessMsg_idle (this : addr) (msg : NPLMiniMessage) :
  preserves (keeps_inv idle) (ProcessMsg this msg).
Proof.
  intros w. unfold ProcessMsg.
  pose proof (update_no_current None this
                (λ st, set_count (m_processed_msg_count st + 1) st)
                ltac:(by intros) w) as H1.
  unfold bind at 1.
  destruct (update this _ w) as [[] w1 | e w1 | u |]; [| exact H1 | done ..].
  destruct (decide (m_type msg = 0)) as [Htype | Htype].
  2:{ simpl. intros HI. by apply H1. }
  unfold bind at 1 2, deref.
  destruct (heap w1 !! this) as [st1 |] eqn:Hst1; [| done].
  destruct (m_file_handlers_map st1 !! m_sFilename msg) as [cb |].
  2:{ simpl. intros HI. by apply H1. }
  unfold SetCurrentMessage at 1, update, bind at 1 2, deref. rewrite Hst1.
  simpl.
  match goal with
  | |- context [finally ?m ?c ?w2] =>
      pose proof (guard_idle this m w2) as H2
  end.
  match type of H2 with
  | ?P → ?Q → _ => assert P as HP; [| assert (idle w → Q) as HQ]
  end.
  { apply preserves_bind; [tc_solve .. | | intros _; apply invoke_no_current].
    apply preserves_modify. intros w0. by apply keeps_same_heap. }
  { intros HI b st' Hb Hne. simpl in Hb.
    rewrite lookup_insert_ne in Hb by congruence.
    by apply (H1 HI b). }
  destruct (finally _ _ _) as [r w3 | e w3 | u |]; simpl; try done;
    intros HI; by apply H2; [| apply HQ].
Qed.

Lemma Process_loop_idle (fuel : nat) (this : addr) :
  ∀ nCount, preserves (keeps_inv idle) (Process_loop fuel this nCount).
Proof.
  induction fuel as [|fuel IH]; intros nCount; [by intros w |].
  simpl. apply preserves_bind; [tc_solve .. | preserve |]. intros st.
  destruct (m_input_queue st) as [|front q]; [preserve |].
  apply preserves_bind; [tc_solve .. | apply ProcessMsg_idle |]. intros _.
  apply preserves_bind; [tc_solve .. | | by intros _].
  apply update_no_current. by intros.
Qed.

Lemma Process_idle (fuel : nat) (this : addr) :
  preserves (keeps_inv idle) (Process fuel this).
Proof.
  unfold Process, observe.
  apply preserves_bind; [tc_solve .. | | intros _; apply Process_loop_idle].
  apply preserves_modify. intros w. by apply keeps_same_heap.
Qed.

Lemma Run_loop_idle (fuel n : nat) :
  ∀ i, preserves (keeps_inv idle) (Run_loop fuel n i).
Proof.
  induction n as [|n IH]; intros i; simpl; [preserve |].
  apply preserves_bind; [tc_solve .. | preserve |]. intros w0.
  destruct (m_temp_rts_pool w0 !! i) as [a |]; [| preserve].
  apply preserves_bind; [tc_solve .. | apply Process_idle | by intros _].
Qed.

Lemma Run_idle (fuel : nat) (bToEnd : bool) :
  preserves (keeps_inv idle) (Run fuel bToEnd).
Proof.
  unfold Run.
  apply preserves_bind; [tc_solve .. | |].
  { apply preserves_modify. intros w. by apply keeps_same_heap. }
  intros _. apply preserves_bind; [tc_solve .. | preserve |]. intros w0.
  apply preserves_bind; [tc_solve .. | apply Run_loop_idle |]. intros _.
  apply preserves_bind; [tc_solve .. | | intros _; apply release_no_current].
  apply preserves_modify. intros w. by apply keeps_same_heap.
Qed.

(** X13.  The current message is there during a dispatch only.  When no
    state has a current message, then whatever the callbacks do and whether
    [Process] or [Run] returns or lets an exception of a callback through,
    no state has a current message afterwards: [GetCurrentMsg] is null and
    [GetCurrentMsgLength] is 0 on every state. *)
Theorem no_current_message_between_dispatches (fuel : nat) (bToEnd : bool)
    (w : World) :
  idle w →
  (∀ this,
     match Process fuel this w with
     | Val _ w' | Thrown _ w' => idle w'
     | _ => True
     end)
  ∧ match Run fuel bToEnd w with
    | Val _ w' | Thrown _ w' => idle w'
    | _ => True
    end.
Proof.
  intros HI. split.
  - intros this. pose proof (Process_idle fuel this w) as H.
    destruct (Process fuel this w); try done; by apply H.
  - pose proof (Run_idle fuel bToEnd w) as H.
    destruct (Run fuel bToEnd w); try done; by apply H.
Qed.

#[local] Instance no_current_message_dec (e : option addr) (w : World) :
  Decision (no_current_message e w).
Proof. unfold no_current_message. apply _. Defined.

Lemma no_current_message_between_dispatches_witness :
  idle sample_failing
  ∧ (∀ this,
       match Process 5 this sample_failing with
       | Val _ w' | Thrown _ w' => idle w'
       | _ => True
       end)
  ∧ Run 5 true sample_failing
    = Thrown (client_exception "boom") (world_left (Run 5 true) sample_failing)
  ∧ idle (world_left (Run 5 true) sample_failing).
Proof.
  assert (idle sample_failing) as H1
    by (apply (bool_decide_unpack _); vm_compute; exact I).
  pose proof (no_current_message_between_dispatches 5 true sample_failing H1)
    as [H2 H3].
  split; [exact H1 |]. split; [exact H2 |].
  assert (Run 5 true sample_failing
          = Thrown (client_exception "boom")
              (world_left (Run 5 true) sample_failing)) as H4
    by (vm_compute; reflexivity).
  split; [exact H4 |]. rewrite H4 in H3. exact H3.
Defined.


(** ** Lookup and creation *)

Lemma GetRuntimeState_pure (name : string) (w : World) :
  ∃ p, GetRuntimeState name w = Val p w.
Proof.
  destruct (decide (name = "")) as [-> | Hname].
  - rewrite GetRuntimeState_empty. by eexists.
  - rewrite GetRuntimeState_named by done. by eexists.
Qed.

(** X14.  [CreateGetState] and [CreateState] are one function: the lookup that
    [CreateGetRuntimeState] makes first is the one that [CreateRuntimeState]
    makes anyway. *)
Theorem CreateGetState_is_CreateState (name : string) (w : World) :
  CreateGetState name w = CreateState name w.
Proof.
  unfold CreateGetState, CreateState, CreateGetRuntimeState.
  destruct (GetRuntimeState_pure name w) as [p Hp].
  erewrite bind_Val; [| exact Hp].
  destruct p as [a |]; [| done].
  unfold CreateRuntimeState. by erewrite bind_Val; [| exact Hp].
Qed.

(** What [CreateRuntimeState] does for a name that the pool does not know. *)
Lemma CreateRuntimeState_new (name : string) (w : World) :
  name ≠ "" → m_active_state_map w !! name = None →
  let a := fresh (dom (heap w)) in
  CreateRuntimeState name w
  = Val (Some a)
      (set_names (<[name := a]> (m_active_state_map w))
         (set_states ({[a]} ∪ m_runtime_states w)
            (set_heap (<[a := CNPLMiniState_new (Some name)]> (heap w)) w))).
Proof.
  intros Hname Hnone a. unfold CreateRuntimeState.
  erewrite bind_Val; [| by apply GetRuntimeState_named]. rewrite Hnone.
  unfold bind, get, modify, ret. simpl. by rewrite decide_False.
Qed.

(** X15.  Creation and lookup by a non-empty name: [CreateState] returns a
    state under which the name resolves from then on, and a second
    [CreateState] with the name returns that state and changes nothing.  A
    name that the pool did not know gets a state that did not exist before,
    whose [GetName] is the name and whose mailbox is empty; it joins
    [m_runtime_states] and the other names resolve as before. *)
Theorem CreateState_then_GetState (name : string) (w : World) :
  name ≠ "" →
  ∃ a w1,
    CreateState name w = Val (Some a) w1
    ∧ GetState (Some name) w1 = Val (Some a) w1
    ∧ CreateState name w1 = Val (Some a) w1
    ∧ (m_active_state_map w !! name = None →
       heap w !! a = None
       ∧ GetName a w1 = Val name w1
       ∧ heap w1 !! a = Some (CNPLMiniState_new (Some name))
       ∧ m_runtime_states w1 = {[a]} ∪ m_runtime_states w
       ∧ ∀ other, other ≠ name →
           m_active_state_map w1 !! other = m_active_state_map w !! other).
Proof.
  intros Hname. unfold CreateState, GetState.
  destruct (m_active_state_map w !! name) as [b |] eqn:Hb.
  - exists b, w. rewrite (CreateRuntimeState_existing name b) by done.
    rewrite GetRuntimeState_named, Hb by done. done.
  - rewrite CreateRuntimeState_new by done.
    set (a := fresh (dom (heap w))).
    eexists _, _. split; [reflexivity |].
    split; [by rewrite GetRuntimeState_named; [simpl; rewrite lookup_insert_eq |] |].
    split.
    { apply CreateRuntimeState_existing; [done |]. simpl.
      apply lookup_insert_eq. }
    intros _. split; [apply not_elem_of_dom, is_fresh |].
    split.
    { unfold GetName.
      erewrite bind_Val; [| apply deref_Some; simpl; apply lookup_insert_eq].
      reflexivity. }
    split; [simpl; apply lookup_insert_eq |]. split; [done |].
    intros other Hother. simpl. by apply lookup_insert_ne.
Qed.

Lemma CreateState_then_GetState_witness :
  "w1" ≠ ""
  ∧ ∃ a w1,
      CreateState "w1" runtime0 = Val (Some a) w1
      ∧ GetState (Some "w1") w1 = Val (Some a) w1
      ∧ CreateState "w1" w1 = Val (Some a) w1
      ∧ (m_active_state_map runtime0 !! "w1" = None →
         heap runtime0 !! a = None
         ∧ GetName a w1 = Val "w1" w1
         ∧ heap w1 !! a = Some (CNPLMiniState_new (Some "w1"))
         ∧ m_runtime_states w1 = {[a]} ∪ m_runtime_states runtime0
         ∧ ∀ other, other ≠ "w1" →
             m_active_state_map w1 !! other
             = m_active_state_map runtime0 !! other).
Proof.
  assert ("w1" ≠ "") as H1 by done.
  split; [exact H1 |]. exact (CreateState_then_GetState "w1" runtime0 H1).
Defined.

(** ** The invariant of the names *)

Lemma names_in_states_same (w w' : World) :
  m_runtime_states w' = m_runtime_states w →
  m_active_state_map w' = m_active_state_map w →
  names_in_states w → names_in_states w'.
Proof. unfold names_in_states. by intros -> ->. Qed.

Lemma CreateRuntimeState_names (name : string) (w : World) :
  names_in_states w →
  ∃ r w', CreateRuntimeState name w = Val r w' ∧ names_in_states w'.
Proof.
  intros HI. unfold CreateRuntimeState.
  destruct (GetRuntimeState_pure name w) as [p Hp].
  erewrite bind_Val; [| exact Hp].
  destruct p as [a |]; [by eexists _, w |].
  unfold bind, get, modify, ret. simpl.
  destruct (decide (name = "")) as [-> | Hname]; simpl.
  - eexists _, _. split; [reflexivity |].
    intros n b Hn. simpl in *. apply elem_of_union_r. by apply (HI n).
  - eexists _, _. split; [reflexivity |].
    intros n b Hn. simpl in *.
    destruct (decide (n = name)) as [-> | Hne].
    + rewrite lookup_insert_eq in Hn. injection Hn as <-. set_solver.
    + rewrite lookup_insert_ne in Hn by done.
      apply elem_of_union_r. by apply (HI n).
Qed.

(** X16.  The operations that fill and empty the pool keep the invariant
    that every state with a name in [m_active_state_map] is in
    [m_runtime_states]: [CreateState] and [CreateGetState] for every name,
    [Init] and [Cleanup] return normally and leave it in force. *)
Theorem names_in_states_kept (w : World) :
  names_in_states w →
  (∀ name, ∃ r w', CreateState name w = Val r w' ∧ names_in_states w')
  ∧ (∀ name, ∃ r w', CreateGetState name w = Val r w' ∧ names_in_states w')
  ∧ (∃ w', Init w = Val tt w' ∧ names_in_states w')
  ∧ (∃ w', Cleanup w = Val tt w' ∧ names_in_states w').
Proof.
  intros HI. split; [| split; [| split]].
  - intros name. by apply CreateRuntimeState_names.
  - intros name. unfold CreateGetState, CreateGetRuntimeState.
    destruct (GetRuntimeState_pure name w) as [p Hp].
    erewrite bind_Val; [| exact Hp].
    destruct p as [a |]; [by eexists _, w |].
    by apply CreateRuntimeState_names.
  - unfold Init. erewrite bind_Val; [| reflexivity].
    destruct (m_runtime_state_main w) as [a |]; [by exists w |].
    destruct (CreateRuntimeState_names "main" w HI) as (r & w' & Hrun & HI').
    erewrite bind_Val; [| exact Hrun]. eexists. split; [reflexivity |].
    by apply (names_in_states_same w').
  - eexists. split; [reflexivity |]. intros n b Hn. simpl in Hn.
    by rewrite lookup_empty in Hn.
Qed.

#[local] Instance names_in_states_dec (w : World) : Decision (names_in_states w).
Proof. unfold names_in_states. apply _. Defined.

Lemma names_in_states_kept_witness :
  names_in_states sample_pool
  ∧ (∀ name, ∃ r w', CreateState name sample_pool = Val r w'
                     ∧ names_in_states w')
  ∧ (∀ name, ∃ r w', CreateGetState name sample_pool = Val r w'
                     ∧ names_in_states w')
  ∧ (∃ w', Init sample_pool = Val tt w' ∧ names_in_states w')
  ∧ (∃ w', Cleanup sample_pool = Val tt w' ∧ names_in_states w').
Proof.
  assert (names_in_states sample_pool) as H1
    by (apply (bool_decide_unpack _); vm_compute; exact I).
  split; [exact H1 |]. exact (names_in_states_kept sample_pool H1).
Defined.

(** ** Deleting twice, and deleting the main state *)

Lemma elem_of_referenced_name (w : World) (name : string) (a : addr) :
  m_active_state_map w !! name = Some a → a ∈ referenced w.
Proof.
  intros Ha. unfold referenced. apply elem_of_union_r, elem_of_map_img.
  by exists name.
Qed.

(** X17.  [DeleteState] called twice on a named state of the pool.  The
    first call returns [true] and leaves the name in place, so the name still
    resolves and the state stays alive; the second call does not find the
    state in [m_runtime_states], erases the name and returns [false]; from
    then on the name does not resolve. *)
Theorem DeleteState_twice (a : addr) (st : CNPLMiniState) (w : World) :
  heap w !! a = Some st →
  a ∈ m_runtime_states w →
  m_name st ≠ "" →
  m_active_state_map w !! m_name st = Some a →
  ∃ w1 w2,
    DeleteState (Some a) w = Val true w1
    ∧ GetState (Some (m_name st)) w1 = Val (Some a) w1
    ∧ heap w1 !! a = Some st
    ∧ DeleteState (Some a) w1 = Val false w2
    ∧ GetState (Some (m_name st)) w2 = Val None w2
    ∧ (a ∉ m_runtime_states w2)
    ∧ m_active_state_map w2 = delete (m_name st) (m_active_state_map w).
Proof.
  intros Hst Hin Hname Hmap.
  set (w0 := set_states (m_runtime_states w ∖ {[a]}) w).
  set (w1 := set_heap (filter (λ kv, kv.1 ∈ referenced w0) (heap w0)) w0).
  assert (DeleteState (Some a) w = Val true w1) as Hdel1.
  { unfold DeleteState, DeleteRuntimeState.
    repeat run_step. rewrite decide_True by done.
    repeat run_step. reflexivity. }
  assert (heap w1 !! a = Some st) as Hst1.
  { subst w1. simpl. apply map_lookup_filter_Some_2; [done |]. simpl.
    by apply (elem_of_referenced_name w0 (m_name st)). }
  set (w2' := set_names (delete (m_name st) (m_active_state_map w1)) w1).
  exists w1, (set_heap (filter (λ kv, kv.1 ∈ referenced w2') (heap w2')) w2').
  split; [exact Hdel1 |].
  split; [by unfold GetState; rewrite GetRuntimeState_named; [simpl; rewrite Hmap |] |].
  split; [exact Hst1 |]. split.
  { unfold DeleteState, DeleteRuntimeState.
    repeat run_step. rewrite decide_False by (simpl; set_solver).
    rewrite decide_False by done.
    repeat run_step. reflexivity. }
  split.
  { unfold GetState. rewrite GetRuntimeState_named by done. simpl.
    by rewrite lookup_delete_eq. }
  split; [simpl; set_solver | done].
Qed.

Lemma DeleteState_twice_witness :
  let w := world_after (CreateState "w1") runtime0 in
  let st := CNPLMiniState_new (Some "w1") in
  heap w !! 2%positive = Some st
  ∧ 2%positive ∈ m_runtime_states w
  ∧ m_active_state_map w !! "w1" = Some 2%positive
  ∧ ∃ w1 w2,
      DeleteState (Some 2%positive) w = Val true w1
      ∧ GetState (Some "w1") w1 = Val (Some 2%positive) w1
      ∧ heap w1 !! 2%positive = Some st
      ∧ DeleteState (Some 2%positive) w1 = Val false w2
      ∧ GetState (Some "w1") w2 = Val None w2
      ∧ (2%positive ∉ m_runtime_states w2)
      ∧ m_active_state_map w2 = delete "w1" (m_active_state_map w).
Proof.
  intros w st.
  assert (heap w !! 2%positive = Some st) as H1 by (vm_compute; reflexivity).
  assert (2%positive ∈ m_runtime_states w) as H2 by (vm_compute; done).
  assert (m_active_state_map w !! m_name st = Some 2%positive) as H4
    by (vm_compute; reflexivity).
  split; [exact H1 |]. split; [exact H2 |]. split; [exact H4 |].
  exact (DeleteState_twice 2%positive st w H1 H2 ltac:(discriminate) H4).
Defined.

(** X18.  [DeleteState] on the main state takes it out of
    [m_runtime_states], which is what [Run] walks, and returns [true]; but
    [m_runtime_state_main] still holds it: the state stays alive,
    [GetMainState] and [GetState] with no name still return it, and
    [Activate] with no sender still queues into it with status [NPL_OK]. *)
Theorem DeleteState_main_stays_default (main : addr) (st : CNPLMiniState)
    (w : World) (text : string) (r : NPLFileName) (code : option string)
    (nLength : Z) :
  m_runtime_state_main w = Some main →
  heap w !! main = Some st →
  main ∈ m_runtime_states w →
  Parse text = Defined r →
  ∃ w1,
    DeleteState (Some main) w = Val true w1
    ∧ (main ∉ in_pointer_order (m_runtime_states w1))
    ∧ GetMainState w1 = Val (Some main) w1
    ∧ GetState None w1 = Val (Some main) w1
    ∧ heap w1 !! main = Some st
    ∧ Activate None (Some text) code nLength w1
      = enqueue_into (Some main) (sRelativePath r) code w1.
Proof.
  intros Hmain Hst Hin Hparse.
  set (w0 := set_states (m_runtime_states w ∖ {[main]}) w).
  exists (set_heap (filter (λ kv, kv.1 ∈ referenced w0) (heap w0)) w0).
  split.
  { unfold DeleteState, DeleteRuntimeState.
    repeat run_step. rewrite decide_True by done.
    repeat run_step. reflexivity. }
  split; [rewrite elem_of_in_pointer_order; simpl; set_solver |].
  split; [unfold GetMainState, bind, get; simpl; by rewrite Hmain |].
  split; [unfold GetState, bind, get; simpl; by rewrite Hmain |].
  split.
  { simpl. apply map_lookup_filter_Some_2; [done |]. simpl.
    unfold referenced. simpl. rewrite Hmain. set_solver. }
  unfold Activate. rewrite Hparse. unfold bind at 1, get at 1. simpl.
  rewrite Hmain. apply Activate_async_enqueues.
Qed.

Lemma DeleteState_main_stays_default_witness :
  m_runtime_state_main runtime0 = Some main0
  ∧ heap runtime0 !! main0 = Some (CNPLMiniState_new (Some "main"))
  ∧ main0 ∈ m_runtime_states runtime0
  ∧ Parse "script/ping.lua" = Defined (mkNPLFileName "" "" "script/ping.lua" "")
  ∧ ∃ w1,
      DeleteState (Some main0) runtime0 = Val true w1
      ∧ (main0 ∉ in_pointer_order (m_runtime_states w1))
      ∧ GetMainState w1 = Val (Some main0) w1
      ∧ GetState None w1 = Val (Some main0) w1
      ∧ heap w1 !! main0 = Some (CNPLMiniState_new (Some "main"))
      ∧ Activate None (Some "script/ping.lua") (Some "x") 0 w1
        = enqueue_into (Some main0) "script/ping.lua" (Some "x") w1.
Proof.
  assert (m_runtime_state_main runtime0 = Some main0) as H1 by reflexivity.
  assert (heap runtime0 !! main0 = Some (CNPLMiniState_new (Some "main")))
    as H2 by (vm_compute; reflexivity).
  assert (main0 ∈ m_runtime_states runtime0) as H3 by (vm_compute; done).
  split; [exact H1 |]. split; [exact H2 |]. split; [exact H3 |].
  split; [reflexivity |].
  exact (DeleteState_main_stays_default main0 _ runtime0 "script/ping.lua" _
           (Some "x") 0 H1 H2 H3 eq_refl).
Defined.

(** ** [Cleanup] and [Init] *)

Lemma Cleanup_world (w : World) :
  let w0 := set_names ∅ (set_states ∅ (set_main None w)) in
  Cleanup w
  = Val tt (set_heap (filter (λ kv, kv.1 ∈ referenced w0) (heap w0)) w0).
Proof. reflexivity. Qed.

Lemma referenced_cleared (w : World) (a : addr) :
  a ∈ referenced (set_names ∅ (set_states ∅ (set_main None w)))
  ↔ a ∈ m_temp_rts_pool w.
Proof.
  unfold referenced. simpl. rewrite map_img_empty_L. set_solver.
Qed.

(** X19.  [Cleanup] returns normally and forgets the pool: there is no main
    state, no state in [m_runtime_states] and no name; a state is still alive
    afterwards exactly when [m_temp_rts_pool], which [Cleanup] does not
    clear, holds it.  From then on [GetState] returns null for every name,
    and [Activate] with no sender calls through the null main state. *)
Theorem Cleanup_forgets (w : World) :
  ∃ w',
    Cleanup w = Val tt w'
    ∧ m_runtime_state_main w' = None
    ∧ m_runtime_states w' = ∅
    ∧ m_active_state_map w' = ∅
    ∧ m_temp_rts_pool w' = m_temp_rts_pool w
    ∧ (∀ a, is_Some (heap w' !! a)
            ↔ is_Some (heap w !! a) ∧ a ∈ m_temp_rts_pool w)
    ∧ (∀ name, GetState name w' = Val None w')
    ∧ (∀ file r code nLength,
         Parse file = Defined r →
         Activate None (Some file) code nLength w'
         = Undefined null_dereference).
Proof.
  eexists. split; [apply Cleanup_world |].
  split; [done |]. split; [done |]. split; [done |]. split; [done |].
  split; [| split].
  - intros a. simpl. unfold is_Some.
    setoid_rewrite map_lookup_filter_Some. simpl.
    setoid_rewrite referenced_cleared. naive_solver.
  - intros [name |]; [| done]. unfold GetState.
    destruct (decide (name = "")) as [-> | Hname]; [done |].
    by rewrite GetRuntimeState_named.
  - intros file r code nLength Hparse. unfold Activate. by rewrite Hparse.
Qed.

Lemma Init_world (w : World) :
  m_runtime_state_main w = None →
  m_active_state_map w !! "main" = None →
  let a := fresh (dom (heap w)) in
  Init w
  = Val tt
      (set_main (Some a)
         (set_names (<["main" := a]> (m_active_state_map w))
            (set_states ({[a]} ∪ m_runtime_states w)
               (set_heap (<[a := CNPLMiniState_new (Some "main")]> (heap w))
                  w)))).
Proof.
  intros Hmain Hnone a. unfold Init.
  erewrite bind_Val; [| reflexivity]. rewrite Hmain.
  erewrite bind_Val; [| by apply CreateRuntimeState_new]. reflexivity.
Qed.

(** X20.  [Init] returns normally and leaves a main state, and a second
    [Init] changes nothing.  With a main state in place it does nothing at
    all.  With no main state and no state named ["main"] it creates one that
    did not exist before, with the name ["main"] and an empty mailbox, puts
    it into [m_runtime_states] and under the name ["main"]; then [GetState]
    with no name, with the empty name and with ["main"] all return it. *)
Theorem Init_establishes_main (w : World) :
  ∃ a w',
    Init w = Val tt w'
    ∧ m_runtime_state_main w' = Some a
    ∧ Init w' = Val tt w'
    ∧ (is_Some (m_runtime_state_main w) → w' = w)
    ∧ (m_runtime_state_main w = None →
       m_active_state_map w !! "main" = None →
       heap w !! a = None
       ∧ heap w' !! a = Some (CNPLMiniState_new (Some "main"))
       ∧ m_runtime_states w' = {[a]} ∪ m_runtime_states w
       ∧ m_active_state_map w' = <["main" := a]> (m_active_state_map w)
       ∧ GetState None w' = Val (Some a) w'
       ∧ GetState (Some "") w' = Val (Some a) w'
       ∧ GetState (Some "main") w' = Val (Some a) w').
Proof.
  destruct (m_runtime_state_main w) as [a |] eqn:Hmain.
  - exists a, w. unfold Init, bind, get. rewrite Hmain.
    split; [done |]. split; [done |]. split; [done |]. split; [done |]. done.
  - destruct (m_active_state_map w !! "main") as [b |] eqn:Hb.
    + exists b, (set_main (Some b) w).
      assert (Init w = Val tt (set_main (Some b) w)) as Hinit.
      { unfold Init. erewrite bind_Val; [| reflexivity]. rewrite Hmain.
        by erewrite bind_Val; [| by apply CreateRuntimeState_existing]. }
      split; [exact Hinit |]. split; [done |]. split; [done |].
      split; [by intros [? ?] | done].
    + rewrite Init_world by done. eexists _, _.
      split; [reflexivity |]. split; [done |]. split; [done |].
      split; [by intros [? ?] |]. intros _ _.
      split; [apply not_elem_of_dom, is_fresh |].
      split; [simpl; apply lookup_insert_eq |].
      split; [done |]. split; [done |]. split; [done |]. split; [done |].
      unfold GetState. rewrite GetRuntimeState_named by done. simpl.
      by rewrite lookup_insert_eq.
Qed.

(** X21.  [Cleanup] followed by [Init] gives a working runtime again,
    whatever the pool was: one state, created by [Init], is the main state,
    the only member of [m_runtime_states] and the only named state. *)
Theorem Init_after_Cleanup (w : World) :
  ∃ a w',
    (Cleanup ;; Init) w = Val tt w'
    ∧ m_runtime_state_main w' = Some a
    ∧ m_runtime_states w' = {[a]}
    ∧ m_active_state_map w' = {["main" := a]}
    ∧ heap w' !! a = Some (CNPLMiniState_new (Some "main"))
    ∧ names_in_states w'.
Proof.
  eexists _, _. split.
  - erewrite bind_Val; [| apply Cleanup_world]. by apply Init_world.
  - split; [done |]. split; [simpl; set_solver |]. split; [done |].
    split; [simpl; apply lookup_insert_eq |].
    intros n b Hn. simpl in *.
    apply lookup_insert_Some in Hn as [[_ <-] | [_ Hn]]; [set_solver |].
    by rewrite lookup_empty in Hn.
Qed.

(** ** A cycle after an aborted cycle *)

(** X22.  [Run] does not clear [m_temp_rts_pool] before it copies the pool
    into it.  With a snapshot left behind in it (by a cycle that an exception
    aborted), every state that the runtime points to in existence and every
    callback tame, [Run] returns normally and enters [Process] on the states
    left behind first and then on the states of [m_runtime_states], in that
    order: a state that is in both is processed twice in the one cycle.
    Afterwards [m_temp_rts_pool] is empty. *)
Theorem Run_replays_leftover_snapshot (fuel : nat) (bToEnd : bool) (w : World) :
  (0 < fuel)%nat →
  pool_inv (m_temp_rts_pool w) fuel w →
  ∃ w',
    Run fuel bToEnd w = Val tt w'
    ∧ processed (trace w')
      = processed (trace w)
        ++ m_temp_rts_pool w ++ in_pointer_order (m_runtime_states w)
    ∧ m_temp_rts_pool w' = []
    ∧ pool_inv [] fuel w'.
Proof.
  intros Hfuel HI. pose proof HI as (_ & Href & Hgood).
  set (snap := m_temp_rts_pool w ++ in_pointer_order (m_runtime_states w)).
  set (w1 := set_temp snap w).
  assert (pool_inv snap fuel w1) as HI1.
  { split; [done |]. split; [| done].
    unfold referenced in *. subst w1 snap. simpl.
    intros x Hx. apply Href.
    assert (x ∈ (list_to_set (in_pointer_order (m_runtime_states w)) : gset addr)
            → x ∈ m_runtime_states w) as Hs.
    { rewrite elem_of_list_to_set. apply elem_of_in_pointer_order. }
    rewrite list_to_set_app_L in Hx. set_solver. }
  destruct (Run_loop_tame snap fuel Hfuel (length snap) 0 w1)
    as (w2 & Hloop & HI2 & Hp2); [lia | done |].
  set (w3 := set_temp [] w2).
  assert (pool_inv [] fuel w3) as HI3.
  { destruct HI2 as (Htemp2 & Href2 & Hgood2).
    split; [done |]. split; [| done].
    unfold referenced in *. subst w3. simpl. set_solver. }
  destruct (release_inv [] fuel Hfuel w3 w3 HI3) as (w' & Hrel & HI' & _ & Htr);
    [done | done | done |].
  exists w'. split.
  - unfold Run. erewrite bind_Val; [| reflexivity].
    erewrite bind_Val; [| reflexivity]. fold snap w1.
    change (length (m_temp_rts_pool w1)) with (length snap).
    erewrite bind_Val; [| exact Hloop].
    erewrite bind_Val; [| reflexivity]. exact Hrel.
  - split.
    + rewrite Htr. subst w3. simpl. rewrite Hp2. subst w1. simpl.
      by rewrite drop_0, firstn_all.
    + split; [by destruct HI' as (? & _) | done].
Qed.

Lemma Run_replays_leftover_snapshot_witness :
  (0 < 5)%nat
  ∧ m_temp_rts_pool sample_aborted = [main0]
  ∧ in_pointer_order (m_runtime_states sample_aborted) = [main0]
  ∧ pool_inv (m_temp_rts_pool sample_aborted) 5 sample_aborted
  ∧ ∃ w',
      Run 5 true sample_aborted = Val tt w'
      ∧ processed (trace w')
        = processed (trace sample_aborted)
          ++ m_temp_rts_pool sample_aborted
          ++ in_pointer_order (m_runtime_states sample_aborted)
      ∧ m_temp_rts_pool w' = []
      ∧ pool_inv [] 5 w'.
Proof.
  assert (0 < 5)%nat as H1 by lia.
  assert (pool_inv (m_temp_rts_pool sample_aborted) 5 sample_aborted) as H2
    by (apply (bool_decide_unpack _); vm_compute; exact I).
  split; [exact H1 |]. split; [vm_compute; reflexivity |].
  split; [vm_compute; reflexivity |]. split; [exact H2 |].
  exact (Run_replays_leftover_snapshot 5 true sample_aborted H1 H2).
Defined.
